(** * rlog: structured logging correlated with request traces

    A shallow embedding of [runtime/rlog/rlog.go].  Go values of static type
    [any] become the inductive [Value] (one constructor per dynamic type the
    type switches distinguish), slices are headers into a store of backing
    arrays, the zerolog event/context builders and the trace buffer are
    modelled by the sequence of method calls made on them, and panics are
    outcomes of a small state-and-panic monad. *)

From Stdlib Require Import ZArith String Ascii List Lia Bool.
From stdpp Require Import base list.
Import ListNotations.
Open Scope string_scope.
Open Scope list_scope.
Open Scope Z_scope.

(** ** Values *)

Definition byte := Z.

(** [stack.Stack]: the captured program counters. *)
Definition Stack := list Z.

(** A non-nil Go [error]: its [Error()] text and the stack [errs.Stack]
    extracts from it. *)
Record GoError := mkError { err_msg : string; err_stack : Stack }.

(** [time.Time], as the seconds and nanoseconds the trace buffer stores. *)
Record Time := mkTime { t_unix : Z; t_nsec : Z }.

(** [uuid.UUID] is [[16]byte]. *)
Record UUID := mkUUID
  { uuid_bytes : list byte; uuid_len : Nat.eqb (length uuid_bytes) 16 = true }.

(** A value of static type [any], by dynamic type.  [VNil] is the nil
    interface; [VOther] is any dynamic type that no case of the type switches
    names (a struct, a map, a named string type, ...), given by its type name
    and an identifier of the value.  Floats are their IEEE bit patterns. *)
Inductive Value :=
| VError (e : GoError)
| VString (s : string)
| VBool (b : bool)
| VTime (t : Time)
| VDuration (d : Z)
| VUUID (u : UUID)
| VInt8 (i : Z) | VInt16 (i : Z) | VInt32 (i : Z) | VInt64 (i : Z) | VInt (i : Z)
| VUint8 (u : Z) | VUint16 (u : Z) | VUint32 (u : Z) | VUint64 (u : Z) | VUint (u : Z)
| VFloat32 (bits : Z)
| VFloat64 (bits : Z)
| VNil
| VOther (type_name : string) (id : Z).

(** The dynamic types, as far as the type switches tell them apart. *)
Inductive GoType :=
| TError | TString | TBool | TTime | TDuration | TUUID
| TInt8 | TInt16 | TInt32 | TInt64 | TInt
| TUint8 | TUint16 | TUint32 | TUint64 | TUint
| TFloat32 | TFloat64
| TNone | TNamed (type_name : string).

Definition typeOf (v : Value) : GoType :=
  match v with
  | VError _ => TError | VString _ => TString | VBool _ => TBool
  | VTime _ => TTime | VDuration _ => TDuration | VUUID _ => TUUID
  | VInt8 _ => TInt8 | VInt16 _ => TInt16 | VInt32 _ => TInt32
  | VInt64 _ => TInt64 | VInt _ => TInt
  | VUint8 _ => TUint8 | VUint16 _ => TUint16 | VUint32 _ => TUint32
  | VUint64 _ => TUint64 | VUint _ => TUint
  | VFloat32 _ => TFloat32 | VFloat64 _ => TFloat64
  | VNil => TNone | VOther n _ => TNamed n
  end.

(** Go's integer conversions [int64(x)] and [uint64(x)]. *)
Definition to_uint64 (x : Z) : Z := x mod 2 ^ 64.
Definition to_int64 (x : Z) : Z := (x + 2 ^ 63) mod 2 ^ 64 - 2 ^ 63.

(** ** Levels and constants *)

Definition logLevel := byte.
Definition levelTrace : logLevel := 0.
Definition levelDebug : logLevel := 1.
Definition levelInfo : logLevel := 2.
Definition levelWarn : logLevel := 3.
Definition levelError : logLevel := 4.

Definition InternalKeyPrefix : string := "encore_".

Definition errType : byte := 1.
Definition strType : byte := 2.
Definition boolType : byte := 3.
Definition timeType : byte := 4.
Definition durType : byte := 5.
Definition uuidType : byte := 6.
Definition jsonType : byte := 7.
Definition intType : byte := 8.
Definition uintType : byte := 9.
Definition float32Type : byte := 10.
Definition float64Type : byte := 11.

(** ** The structured sink (zerolog)

    An event or a context is the list of typed setter calls made on it, in
    call order; one constructor per setter the source uses. *)

Inductive SinkField :=
| AnErr (key : string) (e : GoError)
| Str (key : string) (s : string)
| SBool (key : string) (b : bool)
| STime (key : string) (t : Time)
| Dur (key : string) (d : Z)
| Interface (key : string) (v : Value)
| Int8 (key : string) (i : Z) | Int16 (key : string) (i : Z)
| Int32 (key : string) (i : Z) | Int64 (key : string) (i : Z)
| Int (key : string) (i : Z)
| Uint8 (key : string) (u : Z) | Uint16 (key : string) (u : Z)
| Uint32 (key : string) (u : Z) | Uint64 (key : string) (u : Z)
| Uint (key : string) (u : Z)
| Float32 (key : string) (bits : Z)
| Float64 (key : string) (bits : Z).

Definition sf_key (f : SinkField) : string :=
  match f with
  | AnErr k _ | Str k _ | SBool k _ | STime k _ | Dur k _ | Interface k _
  | Int8 k _ | Int16 k _ | Int32 k _ | Int64 k _ | Int k _
  | Uint8 k _ | Uint16 k _ | Uint32 k _ | Uint64 k _ | Uint k _
  | Float32 k _ | Float64 k _ => k
  end.

Inductive ZLevel := DebugLevel | InfoLevel | WarnLevel | ErrorLevel.

(** [zerolog.Context] and [zerolog.Logger]: the fields accumulated so far.
    Both are values; a setter returns a new one. *)
Record Context := mkContext { cx_fields : list SinkField }.
Record Logger := mkLogger { lg_context : list SinkField }.

(** [*zerolog.Event]: the level, the fields of the logger it was started
    from, and the fields set on the event itself. *)
Record Event := mkEvent
  { ev_level : ZLevel; ev_context : list SinkField; ev_fields : list SinkField }.

Definition Logger_With (l : Logger) : Context := mkContext (lg_context l).
Definition Context_Logger (c : Context) : Logger := mkLogger (cx_fields c).
Definition Logger_event (lv : ZLevel) (l : Logger) : Event :=
  mkEvent lv (lg_context l) [].
Definition ev_set (ev : Event) (f : SinkField) : Event :=
  mkEvent (ev_level ev) (ev_context ev) (ev_fields ev ++ [f]).
Definition cx_set (c : Context) (f : SinkField) : Context :=
  mkContext (cx_fields c ++ [f]).

(** A line the sink has emitted ([ev.Msg]). *)
Record LogLine := mkLine
  { ll_level : ZLevel; ll_msg : string; ll_fields : list SinkField }.

(** ** The trace buffer

    [trace.Buffer] is append-only; its content is the list of writes made on
    it, in call order. *)

Inductive BufOp :=
| OpBytes (b : list byte)
| OpUVarint (u : Z)
| OpVarint (i : Z)
| OpByte (b : byte)
| OpString (s : string)
| OpByteString (b : list byte)
| OpErr (e : option GoError)
| OpStack (s : Stack)
| OpBool (b : bool)
| OpTime (t : Time)
| OpInt64 (i : Z)
| OpFloat32 (bits : Z)
| OpFloat64 (bits : Z).

Definition Buffer := list BufOp.

Definition NewBuffer (size : Z) : Buffer := [].
Definition tb_Bytes (tb : Buffer) (b : list byte) : Buffer := tb ++ [OpBytes b].
Definition tb_UVarint (tb : Buffer) (u : Z) : Buffer := tb ++ [OpUVarint u].
Definition tb_Varint (tb : Buffer) (i : Z) : Buffer := tb ++ [OpVarint i].
Definition tb_Byte (tb : Buffer) (b : byte) : Buffer := tb ++ [OpByte b].
Definition tb_String (tb : Buffer) (s : string) : Buffer := tb ++ [OpString s].
Definition tb_ByteString (tb : Buffer) (b : list byte) : Buffer :=
  tb ++ [OpByteString b].
Definition tb_Err (tb : Buffer) (e : option GoError) : Buffer := tb ++ [OpErr e].
Definition tb_Stack (tb : Buffer) (s : Stack) : Buffer := tb ++ [OpStack s].
Definition tb_Bool (tb : Buffer) (b : bool) : Buffer := tb ++ [OpBool b].
Definition tb_Time (tb : Buffer) (t : Time) : Buffer := tb ++ [OpTime t].
Definition tb_Int64 (tb : Buffer) (i : Z) : Buffer := tb ++ [OpInt64 i].
Definition tb_Float32 (tb : Buffer) (x : Z) : Buffer := tb ++ [OpFloat32 x].
Definition tb_Float64 (tb : Buffer) (x : Z) : Buffer := tb ++ [OpFloat64 x].

(** ** Collaborators outside the package

    [json.Marshal], [uuid.UUID.String], [stack.Build] and the capacity the Go
    runtime picks when [append] has to grow a slice. *)
Class Collaborators := {
  json_Marshal : Value -> list byte * option GoError;
  uuid_String : UUID -> string;
  stack_Build : Z -> Stack;
  growslice_cap : nat -> nat -> nat
}.

Section Encoders.
Context `{Collaborators}.

(** ** The reserved-key guard and the three field encoders *)

Definition reserved (key : string) : bool :=
  String.prefix InternalKeyPrefix key.

Definition addEventEntry (ev : Event) (key : string) (val : Value) : Event :=
  let key := if reserved key then ("x_" ++ key)%string else key in
  match val with
  | VError val => ev_set ev (AnErr key val)
  | VString val => ev_set ev (Str key val)
  | VBool val => ev_set ev (SBool key val)
  | VTime val => ev_set ev (STime key val)
  | VDuration val => ev_set ev (Dur key val)
  | VUUID val => ev_set ev (Str key (uuid_String val))
  | VInt8 val => ev_set ev (Int8 key val)
  | VInt16 val => ev_set ev (Int16 key val)
  | VInt32 val => ev_set ev (Int32 key val)
  | VInt64 val => ev_set ev (Int64 key val)
  | VInt val => ev_set ev (Int key val)
  | VUint8 val => ev_set ev (Uint8 key val)
  | VUint16 val => ev_set ev (Uint16 key val)
  | VUint32 val => ev_set ev (Uint32 key val)
  | VUint64 val => ev_set ev (Uint64 key val)
  | VUint val => ev_set ev (Uint key val)
  | VFloat32 val => ev_set ev (Float32 key val)
  | VFloat64 val => ev_set ev (Float64 key val)
  | VNil | VOther _ _ => ev_set ev (Interface key val)
  end.

Definition addContext (ctx : Context) (key : string) (val : Value) : Context :=
  let key := if reserved key then ("x_" ++ key)%string else key in
  match val with
  | VError val => cx_set ctx (AnErr key val)
  | VString val => cx_set ctx (Str key val)
  | VBool val => cx_set ctx (SBool key val)
  | VTime val => cx_set ctx (STime key val)
  | VDuration val => cx_set ctx (Dur key val)
  | VUUID val => cx_set ctx (Str key (uuid_String val))
  | VInt8 val => cx_set ctx (Int8 key val)
  | VInt16 val => cx_set ctx (Int16 key val)
  | VInt32 val => cx_set ctx (Int32 key val)
  | VInt64 val => cx_set ctx (Int64 key val)
  | VInt val => cx_set ctx (Int key val)
  | VUint8 val => cx_set ctx (Uint8 key val)
  | VUint16 val => cx_set ctx (Uint16 key val)
  | VUint32 val => cx_set ctx (Uint32 key val)
  | VUint64 val => cx_set ctx (Uint64 key val)
  | VUint val => cx_set ctx (Uint key val)
  | VFloat32 val => cx_set ctx (Float32 key val)
  | VFloat64 val => cx_set ctx (Float64 key val)
  | VNil | VOther _ _ => cx_set ctx (Interface key val)
  end.

(** The five signed arms of the source have one body, and so have the five
    unsigned arms; the [default] arm takes the nil interface and every type no
    other arm names. *)
Definition addTraceBufEntry (tb : Buffer) (key : string) (val : Value) : Buffer :=
  match val with
  | VError e =>
      let tb := tb_Byte tb errType in
      let tb := tb_String tb key in
      let tb := tb_Err tb (Some e) in
      tb_Stack tb (err_stack e)
  | VString s =>
      let tb := tb_Byte tb strType in
      let tb := tb_String tb key in
      tb_String tb s
  | VBool b =>
      let tb := tb_Byte tb boolType in
      let tb := tb_String tb key in
      tb_Bool tb b
  | VTime t =>
      let tb := tb_Byte tb timeType in
      let tb := tb_String tb key in
      tb_Time tb t
  | VDuration d =>
      let tb := tb_Byte tb durType in
      let tb := tb_String tb key in
      tb_Int64 tb (to_int64 d)
  | VUUID u =>
      let tb := tb_Byte tb uuidType in
      let tb := tb_String tb key in
      tb_Bytes tb (uuid_bytes u)
  | VNil | VOther _ _ =>
      let tb := tb_Byte tb jsonType in
      let tb := tb_String tb key in
      let '(data, err) := json_Marshal val in
      match err with
      | Some e =>
          let tb := tb_ByteString tb [] in
          tb_Err tb (Some e)
      | None =>
          let tb := tb_ByteString tb data in
          tb_Err tb None
      end
  | VInt8 i | VInt16 i | VInt32 i | VInt64 i | VInt i =>
      let tb := tb_Byte tb intType in
      let tb := tb_String tb key in
      tb_Varint tb (to_int64 i)
  | VUint8 u | VUint16 u | VUint32 u | VUint64 u | VUint u =>
      let tb := tb_Byte tb uintType in
      let tb := tb_String tb key in
      tb_UVarint tb (to_uint64 u)
  | VFloat32 x =>
      let tb := tb_Byte tb float32Type in
      let tb := tb_String tb key in
      tb_Float32 tb x
  | VFloat64 x =>
      let tb := tb_Byte tb float64Type in
      let tb := tb_String tb key in
      tb_Float64 tb x
  end.

End Encoders.

(** ** Slices and the store of backing arrays

    A [[]any] is a header (array, offset, length, capacity); two headers can
    share one backing array, and [append] writes into the spare capacity of
    its first argument when the result fits. *)

Record Slice := mkSlice { s_arr : nat; s_off : nat; s_len : nat; s_cap : nat }.

Definition nilSlice : Slice := mkSlice 0 0 0 0.

(** [s[:n]] *)
Definition reslice (s : Slice) (n : nat) : Slice :=
  mkSlice (s_arr s) (s_off s) n (s_cap s).

(** ** The request tracker and the trace log *)

Record Request := mkRequest { SpanID : list byte }.

(** [*trace.Log], by identity. *)
Definition TraceLog := nat.

Inductive EventType := LogMessage.

(** [reqtrack.Current]: [Req] and [Trace] are pointers that may be nil. *)
Record Current := mkCurrent
  { Req : option Request; Trace : option TraceLog; Goctr : Z }.

Record RequestTracker := mkTracker
  { rt_Logger : Logger; rt_Current : Current }.

Record Manager := mkManager { rt : RequestTracker }.

Definition NewManager (rt : RequestTracker) : Manager := mkManager rt.

Record Ctx := mkCtx
  { ctx_ctx : Context; ctx_mgr : Manager; ctx_fields : Slice }.

(** ** The world and the monad of effects

    The world holds the backing arrays, the lines the sink has emitted and the
    records handed to trace logs.  A computation returns a value or panics;
    the effects made before a panic stay. *)

Record TraceRecord := mkRecord
  { tr_log : TraceLog; tr_kind : EventType; tr_data : Buffer }.

Record World := mkWorld
  { w_heap : list (list Value);
    w_sink : list LogLine;
    w_trace : list TraceRecord }.

Inductive PanicKind := TypeAssertion | NilDereference | IndexOutOfRange.

Inductive Result (A : Type) :=
| Ok (a : A)
| Panic (p : PanicKind).
Arguments Ok {A} a.
Arguments Panic {A} p.

Definition M (A : Type) : Type := World -> Result A * World.

Definition ret {A} (a : A) : M A := fun w => (Ok a, w).

Definition bind {A B} (m : M A) (k : A -> M B) : M B :=
  fun w =>
    match m w with
    | (Ok a, w') => k a w'
    | (Panic p, w') => (Panic p, w')
    end.

Definition panic {A} (p : PanicKind) : M A := fun w => (Panic p, w).

Notation "x <- m ;; k" := (bind m (fun x => k))
  (at level 100, m at next level, right associativity).
Notation "m ;;; k" := (bind m (fun _ => k))
  (at level 100, right associativity).

(** The backing array at an address, and what a header shows of it: exactly
    [s_len] elements. *)
Definition array (w : World) (a : nat) : list Value :=
  default [] (w_heap w !! a).

Definition view (w : World) (s : Slice) : list Value :=
  resize (s_len s) VNil (drop (s_off s) (array w (s_arr s))).

Definition load (s : Slice) : M (list Value) := fun w => (Ok (view w s), w).

(** A header that lies within an allocated array. *)
Definition slice_ok (w : World) (s : Slice) : Prop :=
  (s_arr s < length (w_heap w))%nat /\
  (s_len s <= s_cap s)%nat /\
  (s_off s + s_cap s <= length (array w (s_arr s)))%nat.

(** [x.(string)] *)
Definition assertString (x : Value) : M string :=
  match x with
  | VString s => ret s
  | _ => panic TypeAssertion
  end.

(** A method called through a [*trace.Buffer] reads the buffer it points to. *)
Definition deref (tb : option Buffer) : M Buffer :=
  match tb with
  | Some t => ret t
  | None => panic NilDereference
  end.

(** [ev.Msg(msg)] *)
Definition Event_Msg (ev : Event) (msg : string) : M unit :=
  fun w =>
    (Ok tt,
     mkWorld (w_heap w)
       (w_sink w ++ [mkLine (ev_level ev) msg (ev_context ev ++ ev_fields ev)])
       (w_trace w)).

(** [log.Add(kind, data)] *)
Definition Trace_Add (log : TraceLog) (kind : EventType) (data : Buffer) : M unit :=
  fun w =>
    (Ok tt, mkWorld (w_heap w) (w_sink w) (w_trace w ++ [mkRecord log kind data])).

Section Rlog.
Context `{Collaborators}.

(** [append(s, t...)] *)
Definition append (s t : Slice) : M Slice :=
  fun w =>
    let xs := view w t in
    let n := (s_len s + s_len t)%nat in
    if (n <=? s_cap s)%nat then
      let a := array w (s_arr s) in
      let a' := take (s_off s + s_len s) a ++ xs ++ drop (s_off s + n) a in
      (Ok (mkSlice (s_arr s) (s_off s) n (s_cap s)),
       mkWorld (<[s_arr s := a']> (w_heap w)) (w_sink w) (w_trace w))
    else
      let c := Nat.max n (growslice_cap (s_cap s) n) in
      let a' := view w s ++ xs ++ replicate (c - n) VNil in
      (Ok (mkSlice (length (w_heap w)) 0 n c),
       mkWorld (w_heap w ++ [a']) (w_sink w) (w_trace w)).

(** pairs ensures the key-values are in pairs: it drops the last entry if
    there is an odd number of entries. *)
Definition pairs (keysAndValues : Slice) : Slice :=
  let fields := keysAndValues in
  let num := s_len fields in
  if (num mod 2 =? 1)%nat then
    let num := (num - 1)%nat in
    reslice fields num
  else fields.

(** The loop of [Manager.With] and [Ctx.With]:
    [for i := 0; i < len(fields); i += 2]. *)
Fixpoint withLoop (ctx : Context) (fields : list Value) : M Context :=
  match fields with
  | [] => ret ctx
  | k :: rest =>
      key <- assertString k ;;
      match rest with
      | [] => panic IndexOutOfRange
      | val :: rest' => withLoop (addContext ctx key val) rest'
      end
  end.

Definition Manager_With (l : Manager) (keysAndValues : Slice) : M Ctx :=
  let ctx := Logger_With (rt_Logger (rt l)) in
  let fields := pairs keysAndValues in
  fs <- load fields ;;
  ctx <- withLoop ctx fs ;;
  ret (mkCtx ctx l fields).

Definition Ctx_With (ctx : Ctx) (keysAndValues : Slice) : M Ctx :=
  let c := ctx_ctx ctx in
  let fields := pairs keysAndValues in
  fs <- load fields ;;
  c <- withLoop c fs ;;
  fields <- append (ctx_fields ctx) fields ;;
  ret (mkCtx c (ctx_mgr ctx) fields).

(** The first loop of [doLog]: context fields go to the trace buffer only. *)
Fixpoint traceCtxFields (tb : Buffer) (ctxFields : list Value) : M Buffer :=
  match ctxFields with
  | [] => ret tb
  | k :: rest =>
      key <- assertString k ;;
      match rest with
      | [] => panic IndexOutOfRange
      | val :: rest' => traceCtxFields (addTraceBufEntry tb key val) rest'
      end
  end.

(** The second loop of [doLog]: call-site fields go to the event and, when
    there is a trace buffer, to the buffer. *)
Fixpoint logFieldsLoop (ev : Event) (tb : option Buffer) (logFields : list Value)
  : M (Event * option Buffer) :=
  match logFields with
  | [] => ret (ev, tb)
  | k :: rest =>
      key <- assertString k ;;
      match rest with
      | [] => panic IndexOutOfRange
      | val :: rest' =>
          let ev := addEventEntry ev key val in
          let tb :=
            match tb with
            | Some t => Some (addTraceBufEntry t key val)
            | None => None
            end in
          logFieldsLoop ev tb rest'
      end
  end.

(** The two slices are read once, at the start: nothing writes to the store
    while [doLog] runs. *)
Definition doLog (l : Manager) (level : logLevel) (ev : Event) (msg : string)
    (ctxFields logFields : Slice) : M unit :=
  let curr := rt_Current (rt l) in
  let numFields := Z.of_nat (s_len ctxFields) / 2 + Z.of_nat (s_len logFields) / 2 in
  cs <- load ctxFields ;;
  ls <- load logFields ;;
  let tb : option Buffer :=
    match Req curr, Trace curr with
    | Some req, Some _ =>
        let t := NewBuffer (16 + 8 + Z.of_nat (String.length msg) + 4 + numFields * 50) in
        let t := tb_Bytes t (SpanID req) in
        let t := tb_UVarint t (to_uint64 (Goctr curr)) in
        let t := tb_Byte t level in
        let t := tb_String t msg in
        let t := tb_UVarint t (to_uint64 numFields) in
        Some t
    | _, _ => None
    end in
  tb <- match tb with
        | Some t => t' <- traceCtxFields t cs ;; ret (Some t')
        | None => ret None
        end ;;
  r <- logFieldsLoop ev tb ls ;;
  let '(ev, tb) := r in
  Event_Msg ev msg ;;;
  match Trace curr with
  | Some log =>
      t <- deref tb ;;
      let t := tb_Stack t (stack_Build 3) in
      Trace_Add log LogMessage t
  | None => ret tt
  end.

Definition Manager_Debug (l : Manager) (msg : string) (keysAndValues : Slice) : M unit :=
  let fields := pairs keysAndValues in
  doLog l levelDebug (Logger_event DebugLevel (rt_Logger (rt l))) msg nilSlice fields.

Definition Manager_Info (l : Manager) (msg : string) (keysAndValues : Slice) : M unit :=
  let fields := pairs keysAndValues in
  doLog l levelInfo (Logger_event InfoLevel (rt_Logger (rt l))) msg nilSlice fields.

Definition Manager_Warn (l : Manager) (msg : string) (keysAndValues : Slice) : M unit :=
  let fields := pairs keysAndValues in
  doLog l levelWarn (Logger_event WarnLevel (rt_Logger (rt l))) msg nilSlice fields.

Definition Manager_Error (l : Manager) (msg : string) (keysAndValues : Slice) : M unit :=
  let fields := pairs keysAndValues in
  doLog l levelError (Logger_event ErrorLevel (rt_Logger (rt l))) msg nilSlice fields.

Definition Ctx_Debug (ctx : Ctx) (msg : string) (keysAndValues : Slice) : M unit :=
  let l := Context_Logger (ctx_ctx ctx) in
  let fields := pairs keysAndValues in
  doLog (ctx_mgr ctx) levelDebug (Logger_event DebugLevel l) msg (ctx_fields ctx) fields.

Definition Ctx_Info (ctx : Ctx) (msg : string) (keysAndValues : Slice) : M unit :=
  let l := Context_Logger (ctx_ctx ctx) in
  let fields := pairs keysAndValues in
  doLog (ctx_mgr ctx) levelInfo (Logger_event InfoLevel l) msg (ctx_fields ctx) fields.

Definition Ctx_Warn (ctx : Ctx) (msg : string) (keysAndValues : Slice) : M unit :=
  let l := Context_Logger (ctx_ctx ctx) in
  let fields := pairs keysAndValues in
  doLog (ctx_mgr ctx) levelWarn (Logger_event WarnLevel l) msg (ctx_fields ctx) fields.

Definition Ctx_Error (ctx : Ctx) (msg : string) (keysAndValues : Slice) : M unit :=
  let l := Context_Logger (ctx_ctx ctx) in
  let fields := pairs keysAndValues in
  doLog (ctx_mgr ctx) levelError (Logger_event ErrorLevel l) msg (ctx_fields ctx) fields.

End Rlog.

(** ** The byte image of the trace buffer *)

Module Wire.

(** Modelled from the spec: the methods of [trace.Buffer] and the stack
    serialisation (packages [encore.dev/appruntime/trace] and
    [encore.dev/internal/stack] are not among the sources).  Section 4.3 gives
    the payload shapes: string and byte string are length-prefixed bytes, bool
    is one byte, time is a fixed-width timestamp, duration a signed 64-bit
    count, UUID sixteen raw bytes, signed and unsigned integers a
    variable-length encoding, floats fixed-width IEEE bytes, an error its
    message string.  The variable-length encoding is taken to be the
    base-128 one of Go's [encoding/binary] (zig-zag for signed numbers), the
    length prefix an unsigned varint, and fixed-width numbers little-endian. *)

Definition bytes_of_string (s : string) : list byte :=
  map (fun c => Z.of_N (N_of_ascii c)) (list_ascii_of_string s).

Definition string_of_bytes (b : list byte) : string :=
  string_of_list_ascii (map (fun x => ascii_of_N (Z.to_N x)) b).

Fixpoint uvarint_fuel (fuel : nat) (u : Z) : list byte :=
  match fuel with
  | O => [u]
  | S f =>
      if u <? 128 then [u]
      else (u mod 128 + 128) :: uvarint_fuel f (u / 128)
  end.

Definition UVarint (u : Z) : list byte :=
  uvarint_fuel (Z.to_nat (Z.log2 u)) u.

Definition zigzag (i : Z) : Z := if i <? 0 then - 2 * i - 1 else 2 * i.

Definition Varint (i : Z) : list byte := UVarint (zigzag i).

Fixpoint le_bytes (n : nat) (x : Z) : list byte :=
  match n with
  | O => []
  | S m => x mod 256 :: le_bytes m (x / 256)
  end.

Definition String (s : string) : list byte :=
  UVarint (Z.of_nat (String.length s)) ++ bytes_of_string s.

Definition ByteString (b : list byte) : list byte :=
  UVarint (Z.of_nat (length b)) ++ b.

Definition Err (e : option GoError) : list byte :=
  match e with
  | Some e => String (err_msg e)
  | None => String ""
  end.

(** Section 6 only says that a stack is a serialisable representation
    embedded verbatim; what a decoder needs of it is that it can tell where
    the representation ends. *)
Class StackCodec := {
  encStack : Stack -> list byte;
  skipStack : list byte -> option (list byte * list byte);
  skipStack_enc : forall s rest, skipStack (encStack s ++ rest) = Some (encStack s, rest)
}.

Section Render.
Context `{StackCodec}.

Definition render1 (op : BufOp) : list byte :=
  match op with
  | OpBytes b => b
  | OpUVarint u => UVarint u
  | OpVarint i => Varint i
  | OpByte b => [b]
  | OpString s => String s
  | OpByteString b => ByteString b
  | OpErr e => Err e
  | OpStack s => encStack s
  | OpBool b => [if b then 1 else 0]
  | OpTime t => le_bytes 8 (t_unix t) ++ le_bytes 4 (t_nsec t)
  | OpInt64 i => le_bytes 8 i
  | OpFloat32 x => le_bytes 4 x
  | OpFloat64 x => le_bytes 8 x
  end.

(** [tb.Buf()]: the bytes written so far. *)
Definition render (tb : Buffer) : list byte := flat_map render1 tb.

(** *** A decoder written from the tag table alone *)

(** The bytes of one varint: up to and including the first byte below 128. *)
Fixpoint skipUVarint (l : list byte) : option (list byte * list byte) :=
  match l with
  | [] => None
  | b :: r =>
      if b <? 128 then Some ([b], r)
      else
        match skipUVarint r with
        | Some (p, r') => Some (b :: p, r')
        | None => None
        end
  end.

(** The number a varint's bytes stand for. *)
Fixpoint valUVarint (p : list byte) : Z :=
  match p with
  | [] => 0
  | b :: r => if b <? 128 then b else (b - 128) + 128 * valUVarint r
  end.

Definition skipFixed (n : nat) (l : list byte) : option (list byte * list byte) :=
  if (n <=? length l)%nat then Some (take n l, drop n l) else None.

(** A length-prefixed run of bytes: the bytes of the field, the content, and
    what follows. *)
Definition skipPrefixed (l : list byte)
  : option (list byte * list byte * list byte) :=
  match skipUVarint l with
  | Some (p, r) =>
      let n := Z.to_nat (valUVarint p) in
      match skipFixed n r with
      | Some (c, r') => Some (p ++ c, c, r')
      | None => None
      end
  | None => None
  end.

Definition andThen (f g : list byte -> option (list byte * list byte))
    (l : list byte) : option (list byte * list byte) :=
  match f l with
  | Some (p, r) =>
      match g r with
      | Some (q, r') => Some (p ++ q, r')
      | None => None
      end
  | None => None
  end.

Definition skipString (l : list byte) : option (list byte * list byte) :=
  match skipPrefixed l with
  | Some (p, _, r) => Some (p, r)
  | None => None
  end.

(** The payload that follows the key, by tag. *)
Definition skipPayload (tag : byte) : list byte -> option (list byte * list byte) :=
  match tag with
  | 1 => andThen skipString skipStack
  | 2 => skipString
  | 3 => skipFixed 1
  | 4 => skipFixed 12
  | 5 => skipFixed 8
  | 6 => skipFixed 16
  | 7 => andThen skipString skipString
  | 8 => skipUVarint
  | 9 => skipUVarint
  | 10 => skipFixed 4
  | 11 => skipFixed 8
  | _ => fun _ => None
  end.

(** A decoded field: tag, key and payload bytes. *)
Record Field := mkField { f_tag : byte; f_key : string; f_payload : list byte }.

Definition getField (l : list byte) : option (Field * list byte) :=
  match l with
  | [] => None
  | tag :: r =>
      match skipPrefixed r with
      | Some (_, k, r1) =>
          match skipPayload tag r1 with
          | Some (p, r2) => Some (mkField tag (string_of_bytes k) p, r2)
          | None => None
          end
      | None => None
      end
  end.

Fixpoint getFields (n : nat) (l : list byte) : option (list Field * list byte) :=
  match n with
  | O => Some ([], l)
  | S m =>
      match getField l with
      | Some (f, r) =>
          match getFields m r with
          | Some (fs, r') => Some (f :: fs, r')
          | None => None
          end
      | None => None
      end
  end.

End Render.

(** A stack serialisation that satisfies the interface: the number of frames
    as a varint, then each frame as a signed varint. *)
Definition encFrames (s : Stack) : list byte :=
  UVarint (Z.of_nat (length s)) ++ flat_map Varint s.

Fixpoint skipVarints (n : nat) (l : list byte) : option (list byte * list byte) :=
  match n with
  | O => Some ([], l)
  | S m =>
      match skipUVarint l with
      | Some (p, r) =>
          match skipVarints m r with
          | Some (q, r') => Some (p ++ q, r')
          | None => None
          end
      | None => None
      end
  end.

Definition skipFrames (l : list byte) : option (list byte * list byte) :=
  match skipUVarint l with
  | Some (p, r) =>
      match skipVarints (Z.to_nat (valUVarint p)) r with
      | Some (q, r') => Some (p ++ q, r')
      | None => None
      end
  | None => None
  end.

End Wire.

(** ** Pure readings of the loops

    What the loops compute on a well-formed field list (string at every even
    index, even length); used to state results. *)

Fixpoint kvs_ok (l : list Value) : bool :=
  match l with
  | [] => true
  | VString _ :: _ :: r => kvs_ok r
  | _ => false
  end.

Definition isString (v : Value) : bool :=
  match v with VString _ => true | _ => false end.

Section Readings.
Context `{Collaborators}.

(** The setter call [addEventEntry] makes for one field. *)
Definition eventField (key : string) (val : Value) : list SinkField :=
  ev_fields (addEventEntry (mkEvent DebugLevel [] []) key val).

Fixpoint sinkFields (l : list Value) : list SinkField :=
  match l with
  | VString k :: v :: r => eventField k v ++ sinkFields r
  | _ => []
  end.

Fixpoint traceFields (tb : Buffer) (l : list Value) : Buffer :=
  match l with
  | VString k :: v :: r => traceFields (addTraceBufEntry tb k v) r
  | _ => tb
  end.

(** The tag byte [addTraceBufEntry] writes for a value. *)
Definition traceTag (val : Value) : option byte :=
  match addTraceBufEntry [] "" val with
  | OpByte t :: _ => Some t
  | _ => None
  end.

(** The header [doLog] writes when a request and a trace are active. *)
Definition traceHeader (req : Request) (goctr : Z) (level : logLevel)
    (msg : string) (numFields : Z) : Buffer :=
  [OpBytes (SpanID req); OpUVarint (to_uint64 goctr); OpByte level;
   OpString msg; OpUVarint (to_uint64 numFields)].

End Readings.

(** The tag table of section 4.3, by type. *)
Definition spec_tag (t : GoType) : byte :=
  match t with
  | TError => 1
  | TString => 2
  | TBool => 3
  | TTime => 4
  | TDuration => 5
  | TUUID => 6
  | TNone | TNamed _ => 7
  | TInt8 | TInt16 | TInt32 | TInt64 | TInt => 8
  | TUint8 | TUint16 | TUint32 | TUint64 | TUint => 9
  | TFloat32 => 10
  | TFloat64 => 11
  end.

(** The types the type switches name. *)
Definition enumerated (t : GoType) : bool :=
  match t with
  | TNone | TNamed _ => false
  | _ => true
  end.

(** The key/value pairs of a well-formed field list, the trace-buffer entry
    of one pair and the one setter call made for it. *)
Fixpoint fieldsOf (l : list Value) : list (string * Value) :=
  match l with
  | VString k :: v :: r => (k, v) :: fieldsOf r
  | _ => []
  end.

Definition traceEntry `{Collaborators} (f : string * Value) : Buffer :=
  addTraceBufEntry [] (fst f) (snd f).

Definition sinkField `{Collaborators} (f : string * Value) : SinkField :=
  hd (Interface (fst f) (snd f)) (eventField (fst f) (snd f)).

(** The writes that follow the tag and the key in a field's entry, and the
    field an exact decoder recovers from the entry's bytes. *)
Definition payloadOps `{Collaborators} (f : string * Value) : Buffer :=
  drop 2 (traceEntry f).

Definition wireField `{Collaborators} `{Wire.StackCodec} (f : string * Value)
  : Wire.Field :=
  Wire.mkField (spec_tag (typeOf (snd f))) (fst f) (Wire.render (payloadOps f)).

(** A run that panics and leaves the world as it was. *)
Definition panics {A} (r : Result A * World) (w : World) : Prop :=
  exists p, r = (Panic p, w).

(** The line [ev.Msg(msg)] emits after the call-site fields [ls] were set. *)
Definition lineOf `{Collaborators} (ev : Event) (msg : string) (ls : list Value) : LogLine :=
  mkLine (ev_level ev) msg (ev_context ev ++ ev_fields ev ++ sinkFields ls).

Definition emitted (w : World) (line : LogLine) : World :=
  mkWorld (w_heap w) (w_sink w ++ [line]) (w_trace w).

Definition traced (w : World) (r : TraceRecord) : World :=
  mkWorld (w_heap w) (w_sink w) (w_trace w ++ [r]).

(** A computation whose outcome, emitted lines and trace records do not
    depend on the backing arrays. *)
Definition heapless {A} (m : M A) : Prop :=
  forall w1 w2, w_sink w1 = w_sink w2 -> w_trace w1 = w_trace w2 ->
    fst (m w1) = fst (m w2) /\
    w_sink (snd (m w1)) = w_sink (snd (m w2)) /\
    w_trace (snd (m w1)) = w_trace (snd (m w2)).

(** A [Ctx] as [Manager.With] and [Ctx.With] build it: its field list lies in
    the store, has a string at every even index, and its sink context holds
    the root logger's fields followed by the setter calls for the list. *)
Definition ctx_ok `{Collaborators} (w : World) (c : Ctx) : Prop :=
  slice_ok w (ctx_fields c) /\
  kvs_ok (view w (ctx_fields c)) = true /\
  cx_fields (ctx_ctx c) =
    lg_context (rt_Logger (rt (ctx_mgr c))) ++ sinkFields (view w (ctx_fields c)).

(** The logging methods with the level byte and the sink level each uses. *)
Definition managerMethods `{Collaborators}
  : list ((Manager -> string -> Slice -> M unit) * logLevel * ZLevel) :=
  [(Manager_Debug, levelDebug, DebugLevel); (Manager_Info, levelInfo, InfoLevel);
   (Manager_Warn, levelWarn, WarnLevel); (Manager_Error, levelError, ErrorLevel)].

Definition ctxMethods `{Collaborators}
  : list ((Ctx -> string -> Slice -> M unit) * logLevel * ZLevel) :=
  [(Ctx_Debug, levelDebug, DebugLevel); (Ctx_Info, levelInfo, InfoLevel);
   (Ctx_Warn, levelWarn, WarnLevel); (Ctx_Error, levelError, ErrorLevel)].

(** The buffer writes, for unfolding in proofs. *)
Create HintDb tb.
#[global] Hint Unfold NewBuffer tb_Bytes tb_UVarint tb_Varint tb_Byte tb_String
  tb_ByteString tb_Err tb_Stack tb_Bool tb_Time tb_Int64 tb_Float32 tb_Float64 : tb.

(** ** Sample data *)

Definition sampleMarshal (v : Value) : list byte * option GoError :=
  match v with
  | VOther "chan int" _ => ([], Some (mkError "json: unsupported type: chan int" []))
  | VNil => (Wire.bytes_of_string "null", None)
  | _ => (Wire.bytes_of_string "{}", None)
  end.

#[local] Instance sampleCollaborators : Collaborators := {|
  json_Marshal := sampleMarshal;
  uuid_String := fun _ => "00000000-0000-0000-0000-000000000000";
  stack_Build := fun skip => [skip];
  growslice_cap := fun old _ => (2 * old)%nat
|}.

Definition sampleRequest : Request := mkRequest [0; 0; 0; 0; 0; 0; 0; 42].

Definition sampleLogger : Logger := mkLogger [Str "service" "api"].

Definition tracker (req : option Request) (log : option TraceLog) : RequestTracker :=
  mkTracker sampleLogger (mkCurrent req log 7).

(** Request and trace active; neither; a request without a trace; a trace
    without a request. *)
Definition mgrTraced : Manager := NewManager (tracker (Some sampleRequest) (Some 0%nat)).
Definition mgrIdle : Manager := NewManager (tracker None None).
Definition mgrOrphanTrace : Manager := NewManager (tracker None (Some 0%nat)).

(** A world with one backing array, and the slice that covers it. *)
Definition worldOf (a : list Value) : World := mkWorld [a] [] [].
Definition whole (a : list Value) : Slice := mkSlice 0 0 (length a) (length a).

(** A store with a parent's backing array (two fields and room for one more
    pair) and a caller's argument array of three elements. *)
Definition twoArrays : World :=
  mkWorld [[VString "a"; VInt 1; VNil; VNil]; [VString "b"; VInt 2; VInt 9]] [] [].

Definition parentCtx : Ctx :=
  mkCtx (mkContext [Str "service" "api"; Int "a" 1]) mgrTraced (mkSlice 0 0 2 4).

Definition callerArgs : Slice := mkSlice 1 0 3 3.

(** A context with one inherited field, arguments with one call-site field,
    and arguments whose first key is not a string. *)
Definition sampleArgs : list Value := [VString "b"; VInt 2].
Definition badArgs : list Value := [VInt 3; VString "v"].

Definition ctxWorld : World :=
  mkWorld [[VString "a"; VInt 1]; sampleArgs] [] [].

Definition sampleCtx (m : Manager) : Ctx :=
  mkCtx (mkContext [Str "service" "api"; Int "a" 1]) m (mkSlice 0 0 2 2).

Definition ctxArgs : Slice := mkSlice 1 0 2 2.

Definition sampleFields : list (string * Value) :=
  [("n", VInt (-3)); ("err", VError (mkError "boom" [1; 2]));
   ("ch", VOther "chan int" 0)].

(** A chain of calls, run from a store that holds the three argument arrays:
    [mgr.With("a", 1).With("b", 2)] and then [Info("m", "c", 3)]. *)
Definition chainWorld : World :=
  mkWorld [[VString "a"; VInt 1]; [VString "b"; VInt 2]; [VString "c"; VInt 3]] [] [].

Definition chain : M unit :=
  c1 <- Manager_With mgrTraced (mkSlice 0 0 2 2) ;;
  c2 <- Ctx_With c1 (mkSlice 1 0 2 2) ;;
  Ctx_Info c2 "m" (mkSlice 2 0 2 2).

(** Two children of one [Ctx], itself made by three calls of [With]: with
    the doubling growth of the sample collaborators (Go's own for small
    slices) its field list has six elements in an array of eight. *)
Definition siblingsWorld : World :=
  mkWorld [[VString "a"; VInt 1]; [VString "b"; VInt 2]; [VString "c"; VInt 3];
           [VString "x"; VInt 4]; [VString "y"; VInt 5]] [] [].

Definition siblings : M (list Value * list Value * list Value) :=
  c1 <- Manager_With mgrTraced (mkSlice 0 0 2 2) ;;
  c2 <- Ctx_With c1 (mkSlice 1 0 2 2) ;;
  c3 <- Ctx_With c2 (mkSlice 2 0 2 2) ;;
  x <- Ctx_With c3 (mkSlice 3 0 2 2) ;;
  before <- load (ctx_fields x) ;;
  y <- Ctx_With c3 (mkSlice 4 0 2 2) ;;
  after <- load (ctx_fields x) ;;
  parent <- load (ctx_fields c3) ;;
  ret (before, after, parent).


(** A field whose key does not start with the reserved prefix. *)
Definition unreserved (f : SinkField) : Prop := reserved (sf_key f) = false.


(** A caller's array of four elements, of which the caller passes the first
    two, and another argument array. *)
Definition callerWorld : World :=
  mkWorld [[VString "a"; VInt 1; VString "b"; VInt 2]; [VString "x"; VInt 9]] [] [].

(** * Properties *)

Section EncoderFacts.
Context `{Collaborators}.

Lemma addEventEntry_field (ev : Event) (key : string) (val : Value) :
  addEventEntry ev key val =
  mkEvent (ev_level ev) (ev_context ev) (ev_fields ev ++ eventField key val).
Proof. unfold eventField, addEventEntry; destruct val; reflexivity. Qed.

Lemma addContext_field (ctx : Context) (key : string) (val : Value) :
  addContext ctx key val = mkContext (cx_fields ctx ++ eventField key val).
Proof. unfold eventField, addContext, addEventEntry; destruct val; reflexivity. Qed.

Lemma eventField_key (key : string) (val : Value) :
  exists f, eventField key val = [f] /\
            sf_key f = if reserved key then ("x_" ++ key)%string else key.
Proof.
  unfold eventField, addEventEntry; destruct val; simpl; eexists; split;
    reflexivity.
Qed.

Lemma escaped_differs (key : string) : ("x_" ++ key)%string <> key.
Proof.
  intros E. apply (f_equal String.length) in E. simpl in E. lia.
Qed.

Lemma addTraceBufEntry_shape (tb : Buffer) (key : string) (val : Value) :
  exists payload,
    addTraceBufEntry tb key val =
    tb ++ OpByte (spec_tag (typeOf val)) :: OpString key :: payload.
Proof.
  unfold addTraceBufEntry; autounfold with tb.
  destruct val; simpl;
    try (destruct (json_Marshal _) as [data [e|]]);
    rewrite <- ?app_assoc; simpl; eexists; reflexivity.
Qed.


(** C5: the tag byte written to the trace buffer is the section 4.3 table
    applied to the dynamic type of the value, whatever its content: error 1,
    string 2, bool 3, time 4, duration 5, UUID 6, every other type (and the
    nil interface) 7, the five signed widths 8, the five unsigned widths 9,
    float32 10, float64 11. *)
Theorem trace_tag_by_type (val : Value) :
  traceTag val = Some (spec_tag (typeOf val)) /\
  (forall tb key, exists payload,
      addTraceBufEntry tb key val =
      tb ++ OpByte (spec_tag (typeOf val)) :: OpString key :: payload) /\
  (forall val', typeOf val' = typeOf val -> traceTag val' = traceTag val) /\
  map spec_tag [TInt8; TInt16; TInt32; TInt64; TInt] = [intType; intType; intType; intType; intType] /\
  map spec_tag [TUint8; TUint16; TUint32; TUint64; TUint] = [uintType; uintType; uintType; uintType; uintType] /\
  map spec_tag [TError; TString; TBool; TTime; TDuration; TUUID; TFloat32; TFloat64] =
    [errType; strType; boolType; timeType; durType; uuidType; float32Type; float64Type] /\
  spec_tag TNone = jsonType /\ (forall n, spec_tag (TNamed n) = jsonType).
Proof.
  assert (T : forall v, traceTag v = Some (spec_tag (typeOf v))).
  { intros v. unfold traceTag.
    destruct (addTraceBufEntry_shape [] "" v) as [p ->]. reflexivity. }
  repeat split; try reflexivity.
  - apply T.
  - intros tb key. apply addTraceBufEntry_shape.
  - intros val' E. rewrite !T, E. reflexivity.
Qed.

(** C8: for a value of no enumerated type (the nil interface included) the
    trace-buffer encoder writes the JSON tag and the key, then the result of
    [json.Marshal]: the data and a nil error on success, an empty payload and
    the error on failure.  The encoder is a total function of the buffer, so
    nothing aborts: the loop over call-site fields goes on to the next field
    either way. *)
Theorem json_fallback_never_aborts (key : string) :
  forall val, enumerated (typeOf val) = false ->
  (forall tb,
      addTraceBufEntry tb key val =
      tb ++ [OpByte jsonType; OpString key] ++
      match json_Marshal val with
      | (data, None) => [OpByteString data; OpErr None]
      | (_, Some e) => [OpByteString []; OpErr (Some e)]
      end) /\
  (forall ev tb rest w,
      logFieldsLoop ev (Some tb) (VString key :: val :: rest) w =
      logFieldsLoop (addEventEntry ev key val)
        (Some (addTraceBufEntry tb key val)) rest w).
Proof.
  intros val Hv. split.
  - intros tb. unfold addTraceBufEntry; autounfold with tb.
    destruct val; try discriminate Hv;
      destruct (json_Marshal _) as [data [e|]];
      rewrite <- ?app_assoc; reflexivity.
  - intros. reflexivity.
Qed.

End EncoderFacts.


Lemma json_fallback_never_aborts_witness :
  addTraceBufEntry [] "ch" (VOther "chan int" 0) =
  [OpByte 7; OpString "ch"; OpByteString [];
   OpErr (Some (mkError "json: unsupported type: chan int" []))].
Proof.
  destruct (json_fallback_never_aborts "ch" (VOther "chan int" 0)) as [E _].
  - reflexivity.
  - rewrite E. reflexivity.
Defined.

Section Pipeline.
Context `{Collaborators}.

Lemma addTraceBufEntry_app (tb : Buffer) (key : string) (val : Value) :
  addTraceBufEntry tb key val = tb ++ addTraceBufEntry [] key val.
Proof.
  unfold addTraceBufEntry; autounfold with tb.
  destruct val; simpl;
    try (destruct (json_Marshal _) as [data [e|]]);
    rewrite <- ?app_assoc; reflexivity.
Qed.

(** Induction two elements at a time, as the loops step. *)
Lemma pair_ind (A : Type) (P : list A -> Prop) :
  P [] -> (forall x, P [x]) -> (forall x y l, P l -> P (x :: y :: l)) ->
  forall l, P l.
Proof.
  intros P0 P1 P2.
  assert (G : forall l, P l /\ forall x, P (x :: l)).
  { induction l as [|y l [IH1 IH2]]; split; auto. }
  intros l; apply G.
Qed.

Lemma traceFields_app (tb : Buffer) (l : list Value) :
  traceFields tb l = tb ++ traceFields [] l.
Proof.
  revert tb. induction l as [| x | x y l IH] using pair_ind; intros tb; simpl.
  - now rewrite app_nil_r.
  - destruct x; now rewrite app_nil_r.
  - destruct x; try now rewrite app_nil_r.
    rewrite IH, (IH (addTraceBufEntry [] s y)), (addTraceBufEntry_app tb).
    now rewrite app_assoc.
Qed.

Lemma traceFields_cons (tb : Buffer) (k : string) (v : Value) (l : list Value) :
  traceFields tb (VString k :: v :: l) =
  tb ++ addTraceBufEntry [] k v ++ traceFields [] l.
Proof.
  simpl. rewrite traceFields_app, addTraceBufEntry_app. now rewrite app_assoc.
Qed.

Lemma kvs_ok_even (l : list Value) : kvs_ok l = true -> Nat.even (length l) = true.
Proof.
  induction l as [| x | x y l IH] using pair_ind; simpl; auto.
  - destruct x; discriminate.
  - destruct x; try discriminate. exact IH.
Qed.

Lemma kvs_ok_lookup (l : list Value) (i : nat) (v : Value) :
  kvs_ok l = true -> Nat.even i = true -> l !! i = Some v -> isString v = true.
Proof.
  revert i. induction l as [| x | x y l IH] using pair_ind; intros i Hok Hi Hl.
  - destruct i; discriminate.
  - destruct x; discriminate.
  - simpl in Hok. destruct x; try discriminate.
    destruct i as [|[|i]]; simpl in *.
    + injection Hl as <-. reflexivity.
    + discriminate.
    + eapply IH; eauto.
Qed.

Lemma traceCtxFields_ok (tb : Buffer) (l : list Value) (w : World) :
  kvs_ok l = true -> traceCtxFields tb l w = (Ok (traceFields tb l), w).
Proof.
  revert tb. induction l as [| x | x y l IH] using pair_ind; intros tb Hok.
  - reflexivity.
  - destruct x; discriminate.
  - simpl in Hok. destruct x; try discriminate. simpl. unfold bind. simpl.
    now apply IH.
Qed.

Lemma traceCtxFields_world (tb : Buffer) (l : list Value) (w : World) :
  snd (traceCtxFields tb l w) = w.
Proof.
  revert tb. induction l as [| x | x y l IH] using pair_ind; intros tb.
  - reflexivity.
  - destruct x; reflexivity.
  - destruct x; try reflexivity. simpl. unfold bind. simpl. apply IH.
Qed.

Lemma logFieldsLoop_ok (ev : Event) (tb : option Buffer) (l : list Value) (w : World) :
  kvs_ok l = true ->
  logFieldsLoop ev tb l w =
  (Ok (mkEvent (ev_level ev) (ev_context ev) (ev_fields ev ++ sinkFields l),
       match tb with Some t => Some (traceFields t l) | None => None end), w).
Proof.
  revert ev tb. induction l as [| x | x y l IH] using pair_ind; intros ev tb Hok.
  - simpl. rewrite app_nil_r. destruct ev, tb; reflexivity.
  - destruct x; discriminate.
  - simpl in Hok. destruct x; try discriminate. simpl. unfold bind. simpl.
    rewrite IH by assumption. rewrite addEventEntry_field. simpl.
    rewrite <- app_assoc. destruct tb; reflexivity.
Qed.

Lemma logFieldsLoop_bad (ev : Event) (tb : option Buffer) (l : list Value) (w : World) :
  kvs_ok l = false -> Nat.even (length l) = true ->
  logFieldsLoop ev tb l w = (Panic TypeAssertion, w).
Proof.
  revert ev tb. induction l as [| x | x y l IH] using pair_ind; intros ev tb Hbad Hev.
  - discriminate.
  - discriminate.
  - simpl in Hbad. destruct x; try reflexivity. simpl. unfold bind. simpl.
    apply IH; assumption.
Qed.

Lemma withLoop_ok (ctx : Context) (l : list Value) (w : World) :
  kvs_ok l = true ->
  withLoop ctx l w = (Ok (mkContext (cx_fields ctx ++ sinkFields l)), w).
Proof.
  revert ctx. induction l as [| x | x y l IH] using pair_ind; intros ctx Hok.
  - simpl. rewrite app_nil_r. destruct ctx; reflexivity.
  - destruct x; discriminate.
  - simpl in Hok. destruct x; try discriminate. simpl. unfold bind. simpl.
    rewrite IH by assumption. rewrite addContext_field. simpl.
    now rewrite <- app_assoc.
Qed.

Lemma withLoop_bad (ctx : Context) (l : list Value) (w : World) :
  kvs_ok l = false -> Nat.even (length l) = true ->
  withLoop ctx l w = (Panic TypeAssertion, w).
Proof.
  revert ctx. induction l as [| x | x y l IH] using pair_ind; intros ctx Hbad Hev.
  - discriminate.
  - discriminate.
  - simpl in Hbad. destruct x; try reflexivity. simpl. unfold bind. simpl.
    apply IH; assumption.
Qed.

Lemma sinkFields_length (l : list Value) :
  kvs_ok l = true -> (2 * length (sinkFields l) = length l)%nat.
Proof.
  induction l as [| x | x y l IH] using pair_ind; intros Hok.
  - reflexivity.
  - destruct x; discriminate.
  - simpl in Hok. destruct x; try discriminate. simpl.
    destruct (eventField_key s y) as (f & -> & _). simpl.
    specialize (IH Hok). lia.
Qed.

End Pipeline.

Section DoLog.
Context `{Collaborators}.

Lemma view_length (w : World) (s : Slice) : length (view w s) = s_len s.
Proof. unfold view. apply length_resize. Qed.


(** What [doLog] does on well-formed field lists, by the state of the
    request tracker. *)
Lemma doLog_run (l : Manager) (level : logLevel) (ev : Event) (msg : string)
    (cf lf : Slice) (w : World) :
  kvs_ok (view w lf) = true ->
  (Req (rt_Current (rt l)) <> None -> Trace (rt_Current (rt l)) <> None ->
   kvs_ok (view w cf) = true) ->
  doLog l level ev msg cf lf w =
  let curr := rt_Current (rt l) in
  let numFields := Z.of_nat (s_len cf) / 2 + Z.of_nat (s_len lf) / 2 in
  let w1 := emitted w (lineOf ev msg (view w lf)) in
  match Req curr, Trace curr with
  | Some req, Some log =>
      (Ok tt,
       traced w1
         (mkRecord log LogMessage
            (traceHeader req (Goctr curr) level msg numFields
             ++ traceFields [] (view w cf) ++ traceFields [] (view w lf)
             ++ [OpStack (stack_Build 3)])))
  | None, Some log => (Panic NilDereference, w1)
  | _, None => (Ok tt, w1)
  end.
Proof.
  intros Hl Hc. unfold doLog, load, bind. cbv zeta.
  destruct (Req (rt_Current (rt l))) as [req|], (Trace (rt_Current (rt l))) as [log|];
    simpl.
  - rewrite traceCtxFields_ok by (apply Hc; discriminate). unfold ret. cbn beta iota.
    rewrite logFieldsLoop_ok by assumption. simpl.
    unfold Trace_Add, traced, emitted, lineOf, traceHeader. autounfold with tb. simpl.
    rewrite (traceFields_app _ (view w lf)), (traceFields_app _ (view w cf)).
    rewrite <- !app_assoc. reflexivity.
  - rewrite logFieldsLoop_ok by assumption. reflexivity.
  - rewrite logFieldsLoop_ok by assumption. reflexivity.
  - rewrite logFieldsLoop_ok by assumption. reflexivity.
Qed.

(** A non-string key among the call-site fields: [doLog] panics before the
    event is emitted. *)
Lemma doLog_bad_key (l : Manager) (level : logLevel) (ev : Event) (msg : string)
    (cf lf : Slice) (w : World) :
  kvs_ok (view w lf) = false -> Nat.even (s_len lf) = true ->
  panics (doLog l level ev msg cf lf w) w.
Proof.
  intros Hbad Hev. rewrite <- (view_length w lf) in Hev.
  unfold doLog, load, bind, panics. cbv zeta.
  destruct (Req (rt_Current (rt l))) as [req|], (Trace (rt_Current (rt l))) as [log|];
    simpl; try (rewrite logFieldsLoop_bad by assumption; eauto).
  match goal with |- context [traceCtxFields ?t ?c ?w] =>
    pose proof (traceCtxFields_world t c w) as Ew;
    destruct (traceCtxFields t c w) as [[t'|p] w'] end; simpl in Ew; subst.
  - simpl. rewrite logFieldsLoop_bad by assumption. eauto.
  - eauto.
Qed.

End DoLog.

Section Slices.
Context `{Collaborators}.

Lemma even_mod2 (n : nat) : Nat.even n = true <-> (n mod 2 = 0)%nat.
Proof.
  rewrite Nat.even_spec. split.
  - intros [k ->]. rewrite Nat.mul_comm. apply Nat.Div0.mod_mul.
  - intros E. exists (n / 2)%nat. pose proof (Nat.div_mod_eq n 2). lia.
Qed.

Lemma pairs_len (s : Slice) : s_len (pairs s) = (s_len s - s_len s mod 2)%nat.
Proof.
  unfold pairs. assert (s_len s mod 2 < 2)%nat by (apply Nat.mod_upper_bound; lia).
  destruct (Nat.eqb_spec (s_len s mod 2) 1) as [E|E]; unfold reslice; cbn [s_len]; lia.
Qed.

Lemma pairs_len_even (s : Slice) : Nat.even (s_len (pairs s)) = true.
Proof.
  apply even_mod2. rewrite pairs_len.
  pose proof (Nat.div_mod_eq (s_len s) 2).
  replace (s_len s - s_len s mod 2)%nat with (s_len s / 2 * 2)%nat by lia.
  apply Nat.Div0.mod_mul.
Qed.

Lemma pairs_view (w : World) (s : Slice) :
  view w (pairs s) = take (s_len s - s_len s mod 2) (view w s).
Proof.
  unfold view. rewrite take_resize_le by lia.
  rewrite pairs_len. unfold pairs.
  destruct (s_len s mod 2 =? 1)%nat; reflexivity.
Qed.

Lemma pairs_ok (w : World) (s : Slice) : slice_ok w s -> slice_ok w (pairs s).
Proof.
  unfold slice_ok. intros (A & B & C). pose proof (pairs_len s) as L.
  unfold pairs in *. destruct (s_len s mod 2 =? 1)%nat; unfold reslice in *; cbn [s_len s_arr s_off s_cap] in *; lia.
Qed.

(** C7: [pairs] returns a header onto the same backing array that shows the
    longest even-length prefix of what its argument shows: the argument
    without its last element when the length is odd, the argument itself when
    it is even, elements in their order.  It is a function of the header
    alone: the store is neither read nor written. *)
Theorem pairs_longest_even_prefix (w : World) (s : Slice) :
  let l := view w s in
  let p := view w (pairs s) in
  p = take (length l - length l mod 2) l /\
  (length p mod 2 = 0)%nat /\
  ((length l mod 2 = 1)%nat -> exists x, l = p ++ [x]) /\
  ((length l mod 2 = 0)%nat -> pairs s = s /\ p = l) /\
  (forall q, q `prefix_of` l -> (length q mod 2 = 0)%nat ->
             (length q <= length p)%nat) /\
  s_arr (pairs s) = s_arr s /\ s_off (pairs s) = s_off s /\
  s_cap (pairs s) = s_cap s.
Proof.
  cbv zeta. rewrite !view_length.
  pose proof (pairs_len s) as L. pose proof (pairs_len_even s) as E.
  apply even_mod2 in E.
  assert (B : (s_len s mod 2 < 2)%nat) by (apply Nat.mod_upper_bound; lia).
  split; [apply pairs_view |]. split; [exact E |].
  split; [| split; [| split]].
  - intros Odd. rewrite pairs_view, Odd.
    assert (Hl : length (view w s) = s_len s) by apply view_length.
    destruct (view w s) as [|x l] eqn:V using rev_ind.
    + simpl in Hl. rewrite <- Hl in Odd. discriminate.
    + exists x. rewrite length_app in Hl. simpl in Hl.
      rewrite take_app_length'; [reflexivity | lia].
  - intros Ev. assert (P : pairs s = s).
    { unfold pairs. rewrite Ev. reflexivity. }
    rewrite P. auto.
  - intros q Hq Eq. apply prefix_length in Hq. rewrite view_length in Hq.
    rewrite L. destruct (Nat.eq_dec (s_len s mod 2)%nat 0%nat) as [Z0|N0]; [lia |].
    assert (length q = s_len s -> False) by congruence. lia.
  - unfold pairs. destruct (s_len s mod 2 =? 1)%nat; auto.
Qed.

End Slices.

Section Append.
Context `{Collaborators}.

Lemma view_ok (w : World) (s : Slice) :
  slice_ok w s -> view w s = take (s_len s) (drop (s_off s) (array w (s_arr s))).
Proof.
  intros (A & B & C). unfold view. apply resize_le. rewrite length_drop. lia.
Qed.

(** [append] returns a header that shows the first argument followed by the
    second; what the first argument shows stays as it was, and so do the sink
    and the trace log. *)
Lemma append_spec (s t : Slice) (w : World) :
  slice_ok w s ->
  exists s' w',
    append s t w = (Ok s', w') /\
    view w' s' = view w s ++ view w t /\
    view w' s = view w s /\
    slice_ok w' s' /\ slice_ok w' s /\
    w_sink w' = w_sink w /\ w_trace w' = w_trace w.
Proof.
  intros Hs. pose proof (view_ok w s Hs) as Vs. destruct Hs as (A & B & C).
  pose proof (view_length w t) as Lt. pose proof (view_length w s) as Ls.
  unfold append. cbv zeta.
  destruct (Nat.leb_spec (s_len s + s_len t) (s_cap s)) as [Fit|Grow];
    eexists _, _; (split; [reflexivity |]).
  - (* the result fits: written in place *)
    remember (array w (s_arr s)) as a eqn:Da.
    set (a' := take (s_off s + s_len s) a ++ view w t ++
               drop (s_off s + (s_len s + s_len t)) a).
    assert (Ea : forall u, s_arr u = s_arr s ->
               array (mkWorld (<[s_arr s:=a']> (w_heap w)) (w_sink w) (w_trace w))
                     (s_arr u) = a').
    { intros u ->. unfold array. cbn [w_heap].
      rewrite list_lookup_insert_eq by exact A. reflexivity. }
    assert (La' : length a' = length a).
    { unfold a'. rewrite !length_app, length_take, length_drop, Lt. lia. }
    assert (D : drop (s_off s) a' =
                view w s ++ view w t ++ drop (s_off s + (s_len s + s_len t)) a).
    { unfold a'. rewrite drop_app_le. 2:{ rewrite length_take. lia. }
      rewrite <- take_drop_commute, <- Vs. reflexivity. }
    repeat split; cbn [w_sink w_trace w_heap s_arr s_off s_len s_cap];
      try rewrite length_insert; try assumption; try lia.
    + unfold view at 1. cbn [s_arr s_off s_len]. rewrite (Ea s eq_refl), D.
      rewrite app_assoc. apply resize_app. rewrite length_app. lia.
    + unfold view at 1. rewrite (Ea s eq_refl), D.
      apply resize_app. lia.
    + rewrite (Ea s eq_refl). lia.
    + rewrite (Ea s eq_refl). lia.
  - (* the result does not fit: a new array *)
    set (c := Nat.max (s_len s + s_len t) (growslice_cap (s_cap s) (s_len s + s_len t))).
    set (a' := view w s ++ view w t ++ replicate (c - (s_len s + s_len t)) VNil).
    assert (Old : forall i, (i < length (w_heap w))%nat ->
               array (mkWorld (w_heap w ++ [a']) (w_sink w) (w_trace w)) i = array w i).
    { intros i Hi. unfold array. cbn [w_heap]. rewrite lookup_app_l by exact Hi.
      reflexivity. }
    assert (New : array (mkWorld (w_heap w ++ [a']) (w_sink w) (w_trace w))
                    (length (w_heap w)) = a').
    { unfold array. cbn [w_heap]. rewrite list_lookup_middle by reflexivity.
      reflexivity. }
    repeat split; cbn [w_sink w_trace w_heap s_arr s_off s_len s_cap];
      try rewrite length_app; cbn [length]; try assumption; try lia.
    + unfold view at 1. cbn [s_arr s_off s_len]. rewrite New. cbn [drop]. unfold a'.
      rewrite app_assoc. apply resize_app. rewrite length_app. lia.
    + unfold view. rewrite (Old _ A). reflexivity.
    + rewrite New. unfold a'. rewrite !length_app, length_replicate. lia.
    + rewrite (Old _ A). lia.
Qed.

End Append.

Section ContextChain.
Context `{Collaborators}.

Lemma heapless_ret (A : Type) (a : A) : heapless (ret a).
Proof. intros w1 w2 Es Et. auto. Qed.

Lemma heapless_panic (A : Type) (p : PanicKind) : heapless (@panic A p).
Proof. intros w1 w2 Es Et. auto. Qed.

Lemma heapless_bind (A B : Type) (m : M A) (k : A -> M B) :
  heapless m -> (forall a, heapless (k a)) -> heapless (bind m k).
Proof.
  intros Hm Hk w1 w2 Es Et. unfold bind.
  destruct (Hm w1 w2 Es Et) as (E & S & T).
  destruct (m w1) as [[a|p] w1'], (m w2) as [[a'|p'] w2']; simpl in *;
    try discriminate; injection E as <-; auto.
  apply Hk; assumption.
Qed.

Lemma heapless_Event_Msg (ev : Event) (msg : string) : heapless (Event_Msg ev msg).
Proof. intros w1 w2 Es Et. unfold Event_Msg. simpl. rewrite Es. auto. Qed.

Lemma heapless_Trace_Add (log : TraceLog) (k : EventType) (d : Buffer) :
  heapless (Trace_Add log k d).
Proof. intros w1 w2 Es Et. unfold Trace_Add. simpl. rewrite Et. auto. Qed.

Lemma heapless_deref (tb : option Buffer) : heapless (deref tb).
Proof. destruct tb; [apply heapless_ret | apply heapless_panic]. Qed.

Lemma heapless_assertString (x : Value) : heapless (assertString x).
Proof. destruct x; first [apply heapless_ret | apply heapless_panic]. Qed.

Lemma heapless_traceCtxFields (tb : Buffer) (l : list Value) :
  heapless (traceCtxFields tb l).
Proof.
  revert tb. induction l as [| x | x y l IH] using pair_ind; intros tb; simpl.
  - apply heapless_ret.
  - apply heapless_bind; [apply heapless_assertString | intros; apply heapless_panic].
  - apply heapless_bind; [apply heapless_assertString | intros; apply IH].
Qed.

Lemma heapless_logFieldsLoop (ev : Event) (tb : option Buffer) (l : list Value) :
  heapless (logFieldsLoop ev tb l).
Proof.
  revert ev tb. induction l as [| x | x y l IH] using pair_ind; intros ev tb; simpl.
  - apply heapless_ret.
  - apply heapless_bind; [apply heapless_assertString | intros; apply heapless_panic].
  - apply heapless_bind; [apply heapless_assertString | intros; apply IH].
Qed.

Lemma bind_load (A : Type) (s : Slice) (k : list Value -> M A) (w : World) :
  bind (load s) k w = k (view w s) w.
Proof. reflexivity. Qed.

(** [doLog] reads the store only through what its two slices show. *)
Lemma doLog_frame (l : Manager) (level : logLevel) (ev : Event) (msg : string)
    (cf lf : Slice) (w1 w2 : World) :
  view w1 cf = view w2 cf -> view w1 lf = view w2 lf ->
  w_sink w1 = w_sink w2 -> w_trace w1 = w_trace w2 ->
  fst (doLog l level ev msg cf lf w1) = fst (doLog l level ev msg cf lf w2) /\
  w_sink (snd (doLog l level ev msg cf lf w1)) =
    w_sink (snd (doLog l level ev msg cf lf w2)) /\
  w_trace (snd (doLog l level ev msg cf lf w1)) =
    w_trace (snd (doLog l level ev msg cf lf w2)).
Proof.
  intros Vc Vl Es Et. unfold doLog. cbv zeta. rewrite !bind_load, Vc, Vl.
  match goal with |- fst (?m w1) = _ /\ _ => cut (heapless m) end.
  { intros Hm. exact (Hm w1 w2 Es Et). }
  apply heapless_bind.
  { destruct (Req (rt_Current (rt l))), (Trace (rt_Current (rt l))); try apply heapless_ret.
    apply heapless_bind; [apply heapless_traceCtxFields | intros; apply heapless_ret]. }
  intros tb. apply heapless_bind; [apply heapless_logFieldsLoop |].
  intros [ev' tb']. apply heapless_bind; [apply heapless_Event_Msg |].
  intros _. destruct (Trace (rt_Current (rt l))); [| apply heapless_ret].
  apply heapless_bind; [apply heapless_deref | intros; apply heapless_Trace_Add].
Qed.

Lemma kvs_ok_app (a b : list Value) :
  kvs_ok a = true -> kvs_ok (a ++ b) = kvs_ok b.
Proof.
  induction a as [| x | x y a IH] using pair_ind; intros Ha.
  - reflexivity.
  - destruct x; discriminate.
  - simpl in Ha. destruct x; try discriminate. simpl. auto.
Qed.

Lemma sinkFields_app (a b : list Value) :
  kvs_ok a = true -> sinkFields (a ++ b) = sinkFields a ++ sinkFields b.
Proof.
  induction a as [| x | x y a IH] using pair_ind; intros Ha.
  - reflexivity.
  - destruct x; discriminate.
  - simpl in Ha. destruct x; try discriminate. simpl.
    rewrite IH by assumption. now rewrite app_assoc.
Qed.

(** [Ctx.With], run: it returns exactly when the new pairs have string keys. *)
Lemma Ctx_With_run (parent : Ctx) (kvs : Slice) (w : World) :
  slice_ok w (ctx_fields parent) ->
  if kvs_ok (view w (pairs kvs)) then
    exists s' w',
      append (ctx_fields parent) (pairs kvs) w = (Ok s', w') /\
      Ctx_With parent kvs w =
      (Ok (mkCtx (mkContext (cx_fields (ctx_ctx parent)
                             ++ sinkFields (view w (pairs kvs))))
                 (ctx_mgr parent) s'), w')
  else Ctx_With parent kvs w = (Panic TypeAssertion, w).
Proof.
  intros Hs. destruct (kvs_ok (view w (pairs kvs))) eqn:K.
  - destruct (append_spec (ctx_fields parent) (pairs kvs) w Hs)
      as (s' & w' & Ea & _).
    exists s', w'. split; [exact Ea |].
    unfold Ctx_With. cbv zeta. rewrite bind_load. unfold bind.
    rewrite withLoop_ok by exact K. rewrite Ea. reflexivity.
  - unfold Ctx_With. cbv zeta. rewrite bind_load. unfold bind.
    rewrite withLoop_bad; [reflexivity | exact K |].
    rewrite view_length. apply pairs_len_even.
Qed.

(** C3: [Ctx.With] leaves its receiver as it was.  Whatever the pairs, the
    parent's field list shows the same elements afterwards, and nothing is
    emitted or traced; when the call returns (it does exactly when every key
    of the normalized pairs is a string, and panics without any effect
    otherwise) the child's field list shows the parent's fields followed by
    the normalized pairs, the child's sink context is the parent's followed by
    the setter calls for the new pairs, and the manager is shared.  A log call
    through the parent after [With] has the outcome, line and trace record it
    would have had before. *)
Theorem Ctx_With_leaves_receiver (parent : Ctx) (kvs : Slice) (w : World) :
  slice_ok w (ctx_fields parent) ->
  let new := view w (pairs kvs) in
  let r := Ctx_With parent kvs w in
  let w' := snd r in
  view w' (ctx_fields parent) = view w (ctx_fields parent) /\
  w_sink w' = w_sink w /\ w_trace w' = w_trace w /\
  match fst r with
  | Ok child =>
      kvs_ok new = true /\
      view w' (ctx_fields child) = view w (ctx_fields parent) ++ new /\
      cx_fields (ctx_ctx child) = cx_fields (ctx_ctx parent) ++ sinkFields new /\
      ctx_mgr child = ctx_mgr parent
  | Panic p => kvs_ok new = false /\ p = TypeAssertion /\ w' = w
  end /\
  (forall level ev msg lf, view w' lf = view w lf ->
     let before := doLog (ctx_mgr parent) level ev msg (ctx_fields parent) lf w in
     let after := doLog (ctx_mgr parent) level ev msg (ctx_fields parent) lf w' in
     fst after = fst before /\
     w_sink (snd after) = w_sink (snd before) /\
     w_trace (snd after) = w_trace (snd before)).
Proof.
  intros Hs. cbv zeta. pose proof (Ctx_With_run parent kvs w Hs) as R.
  destruct (kvs_ok (view w (pairs kvs))) eqn:K.
  - destruct R as (s' & w' & Ea & ->).
    destruct (append_spec (ctx_fields parent) (pairs kvs) w Hs)
      as (s2 & w2 & Ea' & V1 & V2 & _ & _ & Es & Et).
    rewrite Ea in Ea'. injection Ea' as <- <-. cbn [fst snd].
    repeat split; auto.
    all: apply doLog_frame; auto.
  - rewrite R. cbn [fst snd]. repeat split; auto.
Qed.

End ContextChain.

Lemma Ctx_With_leaves_receiver_witness :
  slice_ok twoArrays (ctx_fields parentCtx) /\
  view (snd (Ctx_With parentCtx callerArgs twoArrays)) (ctx_fields parentCtx) =
  [VString "a"; VInt 1].
Proof.
  assert (Hs : slice_ok twoArrays (ctx_fields parentCtx)).
  { unfold slice_ok. simpl. lia. }
  split; [exact Hs |].
  destruct (Ctx_With_leaves_receiver parentCtx callerArgs twoArrays Hs) as [V _].
  rewrite V. reflexivity.
Defined.

Section LogCalls.
Context `{Collaborators}.

Lemma eventField_sinkField (k : string) (v : Value) :
  eventField k v = [sinkField (k, v)].
Proof.
  unfold sinkField. cbn [fst snd]. destruct (eventField_key k v) as (f & -> & _). reflexivity.
Qed.

Lemma sinkFields_map (l : list Value) : sinkFields l = map sinkField (fieldsOf l).
Proof.
  induction l as [| x | x y l IH] using pair_ind; simpl.
  - reflexivity.
  - destruct x; reflexivity.
  - destruct x; try reflexivity. rewrite eventField_sinkField, IH. reflexivity.
Qed.

Lemma traceFields_flat_map (l : list Value) :
  traceFields [] l = flat_map traceEntry (fieldsOf l).
Proof.
  induction l as [| x | x y l IH] using pair_ind.
  - reflexivity.
  - destruct x; reflexivity.
  - destruct x; try reflexivity. rewrite traceFields_cons, IH. reflexivity.
Qed.

Lemma fieldsOf_length (l : list Value) :
  kvs_ok l = true -> Z.of_nat (length l) / 2 = Z.of_nat (length (fieldsOf l)).
Proof.
  intros Hok. pose proof (sinkFields_length l Hok) as L.
  rewrite sinkFields_map, length_map in L.
  rewrite <- L, Nat2Z.inj_mul, Z.mul_comm. apply Z.div_mul. discriminate.
Qed.

Lemma manager_method_doLog m level zl (l : Manager) (msg : string) (kvs : Slice) :
  In (m, level, zl) managerMethods ->
  m l msg kvs =
  doLog l level (Logger_event zl (rt_Logger (rt l))) msg nilSlice (pairs kvs).
Proof.
  intros [E|[E|[E|[E|[]]]]]; injection E as <- <- <-; reflexivity.
Qed.

Lemma ctx_method_doLog m level zl (c : Ctx) (msg : string) (kvs : Slice) :
  In (m, level, zl) ctxMethods ->
  m c msg kvs =
  doLog (ctx_mgr c) level (Logger_event zl (Context_Logger (ctx_ctx c))) msg
    (ctx_fields c) (pairs kvs).
Proof.
  intros [E|[E|[E|[E|[]]]]]; injection E as <- <- <-; reflexivity.
Qed.

(** C2: the state in which the two guards of [doLog] disagree.  With a trace
    but no request, [doLog] makes no trace buffer, emits the line, and then
    calls [tb.Stack] through the nil pointer: the log call ends in a panic
    instead of returning. *)
Theorem doLog_trace_without_request_panics (l : Manager) (level : logLevel)
    (ev : Event) (msg : string) (cf lf : Slice) (w : World) (log : TraceLog) :
  Req (rt_Current (rt l)) = None ->
  Trace (rt_Current (rt l)) = Some log ->
  kvs_ok (view w lf) = true ->
  doLog l level ev msg cf lf w =
  (Panic NilDereference, emitted w (lineOf ev msg (view w lf))).
Proof.
  intros Hr Ht Hl. rewrite doLog_run; [| exact Hl | rewrite Hr; congruence].
  cbv zeta. rewrite Hr, Ht. reflexivity.
Qed.

(** In the three other states of the tracker a log call with string keys
    returns and emits its line; without a trace it leaves the trace log
    alone. *)
Lemma doLog_returns (l : Manager) (level : logLevel) (ev : Event) (msg : string)
    (cf lf : Slice) (w : World) :
  (Req (rt_Current (rt l)) = None -> Trace (rt_Current (rt l)) = None) ->
  kvs_ok (view w cf) = true -> kvs_ok (view w lf) = true ->
  fst (doLog l level ev msg cf lf w) = Ok tt /\
  w_sink (snd (doLog l level ev msg cf lf w)) =
    w_sink w ++ [lineOf ev msg (view w lf)] /\
  (Trace (rt_Current (rt l)) = None ->
   w_trace (snd (doLog l level ev msg cf lf w)) = w_trace w).
Proof.
  intros Hr Hc Hl. rewrite doLog_run by auto. cbv zeta.
  destruct (Req (rt_Current (rt l))) as [req|], (Trace (rt_Current (rt l))) as [log|];
    cbn [fst snd emitted traced w_sink w_trace]; auto.
  - repeat split; auto. discriminate.
  - specialize (Hr eq_refl). discriminate.
Qed.

(** C4: when a request and a trace are active, the record handed to the trace
    log starts with the span id, the event counter, the level byte, the
    message and the field count, in this order, followed by the entries of the
    inherited fields, those of the call-site fields, and the stack.  The count
    is the number of inherited pairs plus the number of call-site pairs (as a
    uint64), which is also the number of entries that follow it. *)
Theorem trace_header_then_fields (l : Manager) (level : logLevel) (ev : Event)
    (msg : string) (cf lf : Slice) (w : World) (req : Request) (log : TraceLog) :
  Req (rt_Current (rt l)) = Some req ->
  Trace (rt_Current (rt l)) = Some log ->
  kvs_ok (view w cf) = true -> kvs_ok (view w lf) = true ->
  let inherited := fieldsOf (view w cf) in
  let callsite := fieldsOf (view w lf) in
  let count := Z.of_nat (length inherited + length callsite) in
  fst (doLog l level ev msg cf lf w) = Ok tt /\
  w_trace (snd (doLog l level ev msg cf lf w)) =
  w_trace w ++
  [mkRecord log LogMessage
     ([OpBytes (SpanID req); OpUVarint (to_uint64 (Goctr (rt_Current (rt l))));
       OpByte level; OpString msg; OpUVarint (to_uint64 count)]
      ++ flat_map traceEntry (inherited ++ callsite)
      ++ [OpStack (stack_Build 3)])] /\
  (count < 2 ^ 64 -> to_uint64 count = count).
Proof.
  intros Hr Ht Hc Hl. cbv zeta. rewrite doLog_run by auto. cbv zeta.
  rewrite Hr, Ht. cbn [fst snd traced w_trace]. split; [reflexivity |]. split.
  - unfold traceHeader. rewrite <- !view_length with (w := w).
    rewrite !fieldsOf_length by assumption.
    rewrite !traceFields_flat_map, flat_map_app, Nat2Z.inj_add.
    rewrite <- !app_assoc. reflexivity.
  - intros B. unfold to_uint64. apply Z.mod_small. lia.
Qed.

End LogCalls.

Section Inheritance.
Context `{Collaborators}.

(** [Manager.With], run. *)
Lemma Manager_With_run (l : Manager) (kvs : Slice) (w : World) :
  Manager_With l kvs w =
  if kvs_ok (view w (pairs kvs)) then
    (Ok (mkCtx (mkContext (lg_context (rt_Logger (rt l))
                           ++ sinkFields (view w (pairs kvs))))
               l (pairs kvs)), w)
  else (Panic TypeAssertion, w).
Proof.
  unfold Manager_With. cbv zeta. rewrite bind_load. unfold bind.
  destruct (kvs_ok (view w (pairs kvs))) eqn:K.
  - rewrite withLoop_ok by exact K. reflexivity.
  - rewrite withLoop_bad; [reflexivity | exact K |].
    rewrite view_length. apply pairs_len_even.
Qed.

(** Every [Ctx] that [Manager.With] returns is well formed, and [Ctx.With]
    returns a well-formed child of a well-formed parent, which stays so. *)
Lemma Manager_With_ctx_ok (l : Manager) (kvs : Slice) (w : World) (c : Ctx) (w' : World) :
  slice_ok w kvs -> Manager_With l kvs w = (Ok c, w') -> w' = w /\ ctx_ok w c.
Proof.
  intros Hs. rewrite Manager_With_run.
  destruct (kvs_ok (view w (pairs kvs))) eqn:K; [| discriminate].
  intros E. injection E as <- <-. split; [reflexivity |].
  unfold ctx_ok. cbn [ctx_fields ctx_ctx ctx_mgr cx_fields rt].
  auto using pairs_ok.
Qed.

Lemma Ctx_With_ctx_ok (p : Ctx) (kvs : Slice) (w : World) (c : Ctx) (w' : World) :
  ctx_ok w p -> Ctx_With p kvs w = (Ok c, w') -> ctx_ok w' c /\ ctx_ok w' p.
Proof.
  intros (Hs & Hk & Hc) E.
  destruct (append_spec (ctx_fields p) (pairs kvs) w Hs)
    as (s2 & w2 & Ea & V1 & V2 & S1 & S2 & _).
  pose proof (Ctx_With_run p kvs w Hs) as R.
  destruct (kvs_ok (view w (pairs kvs))) eqn:K; [| rewrite R in E; discriminate].
  destruct R as (s' & w3 & Ea' & R). rewrite Ea in Ea'. injection Ea' as <- <-.
  rewrite R in E. injection E as <- <-.
  unfold ctx_ok. cbn [ctx_fields ctx_ctx ctx_mgr cx_fields].
  rewrite V1, V2, kvs_ok_app, sinkFields_app, Hc, <- app_assoc by assumption.
  auto 10.
Qed.


(** C10: a non-string value at an even index of the normalized pairs makes
    [Manager.With], [Ctx.With] and each of the eight logging methods panic,
    with nothing emitted, traced or stored. *)
Theorem non_string_key_panics (kvs : Slice) (w : World) (i : nat) (v : Value) :
  Nat.even i = true ->
  view w (pairs kvs) !! i = Some v ->
  isString v = false ->
  (forall l, Manager_With l kvs w = (Panic TypeAssertion, w)) /\
  (forall c, Ctx_With c kvs w = (Panic TypeAssertion, w)) /\
  (forall m level zl l msg,
      In (m, level, zl) managerMethods -> panics (m l msg kvs w) w) /\
  (forall m level zl c msg,
      In (m, level, zl) ctxMethods -> panics (m c msg kvs w) w).
Proof.
  intros Hi Hv Hs.
  assert (K : kvs_ok (view w (pairs kvs)) = false).
  { destruct (kvs_ok (view w (pairs kvs))) eqn:K; [| reflexivity].
    rewrite (kvs_ok_lookup _ _ _ K Hi Hv) in Hs. discriminate. }
  assert (E : Nat.even (length (view w (pairs kvs))) = true).
  { rewrite view_length. apply pairs_len_even. }
  split; [| split; [| split]].
  - intros l. rewrite Manager_With_run, K. reflexivity.
  - intros c. unfold Ctx_With. cbv zeta. rewrite bind_load. unfold bind.
    rewrite withLoop_bad by assumption. reflexivity.
  - intros m level zl l msg Hin. rewrite (manager_method_doLog _ _ _ _ _ _ Hin).
    apply doLog_bad_key; [exact K | apply pairs_len_even].
  - intros m level zl c msg Hin. rewrite (ctx_method_doLog _ _ _ _ _ _ Hin).
    apply doLog_bad_key; [exact K | apply pairs_len_even].
Qed.

End Inheritance.

Lemma doLog_trace_without_request_panics_witness :
  Manager_Info mgrOrphanTrace "m" ctxArgs ctxWorld =
  (Panic NilDereference,
   mkWorld (w_heap ctxWorld)
     [mkLine InfoLevel "m" [Str "service" "api"; Int "b" 2]] []).
Proof.
  unfold Manager_Info. cbv zeta.
  rewrite (doLog_trace_without_request_panics mgrOrphanTrace levelInfo
             (Logger_event InfoLevel (rt_Logger (rt mgrOrphanTrace))) "m"
             nilSlice (pairs ctxArgs) ctxWorld 0%nat eq_refl eq_refl eq_refl).
  reflexivity.
Defined.

Lemma trace_header_then_fields_witness :
  w_trace (snd (Ctx_Info (sampleCtx mgrTraced) "m" ctxArgs ctxWorld)) =
  [mkRecord 0%nat LogMessage
     [OpBytes [0; 0; 0; 0; 0; 0; 0; 42]; OpUVarint 7; OpByte levelInfo;
      OpString "m"; OpUVarint 2;
      OpByte intType; OpString "a"; OpVarint 1;
      OpByte intType; OpString "b"; OpVarint 2;
      OpStack [3]]].
Proof.
  pose proof (trace_header_then_fields mgrTraced levelInfo
                (Logger_event InfoLevel (Context_Logger (ctx_ctx (sampleCtx mgrTraced))))
                "m" (ctx_fields (sampleCtx mgrTraced)) (pairs ctxArgs) ctxWorld
                sampleRequest 0%nat eq_refl eq_refl eq_refl eq_refl) as (_ & E & _).
  unfold Ctx_Info. cbv zeta. cbn [ctx_mgr sampleCtx]. rewrite E. reflexivity.
Defined.


Lemma non_string_key_panics_witness :
  Manager_With mgrTraced (whole badArgs) (worldOf badArgs) =
  (Panic TypeAssertion, worldOf badArgs) /\
  panics (Manager_Info mgrTraced "m" (whole badArgs) (worldOf badArgs)) (worldOf badArgs).
Proof.
  destruct (non_string_key_panics (whole badArgs) (worldOf badArgs) 0 (VInt 3)
              eq_refl eq_refl eq_refl) as (A & _ & B & _).
  split; [apply A |].
  apply (B Manager_Info levelInfo InfoLevel). simpl. auto.
Defined.

Section WireFacts.

Lemma uvarint_fuel_skip (f : nat) (u : Z) (rest : list byte) :
  u < 128 * 2 ^ Z.of_nat f ->
  Wire.skipUVarint (Wire.uvarint_fuel f u ++ rest) = Some (Wire.uvarint_fuel f u, rest).
Proof.
  revert u. induction f as [|f IH]; intros u Hu; simpl Wire.uvarint_fuel.
  - simpl. destruct (Z.ltb_spec u 128); [reflexivity | simpl in Hu; lia].
  - destruct (Z.ltb_spec u 128) as [Lt|Ge]; simpl.
    + destruct (Z.ltb_spec u 128); [reflexivity | lia].
    + pose proof (Z.mod_pos_bound u 128 eq_refl).
      destruct (Z.ltb_spec (u mod 128 + 128) 128); [lia |].
      rewrite IH; [reflexivity |].
      apply Z.div_lt_upper_bound; [lia |].
      rewrite Nat2Z.inj_succ, Z.pow_succ_r in Hu by lia.
      assert (0 < 2 ^ Z.of_nat f) by (apply Z.pow_pos_nonneg; lia). lia.
Qed.

Lemma uvarint_fuel_val (f : nat) (u : Z) :
  u < 128 * 2 ^ Z.of_nat f -> Wire.valUVarint (Wire.uvarint_fuel f u) = u.
Proof.
  revert u. induction f as [|f IH]; intros u Hu; simpl Wire.uvarint_fuel.
  - simpl. destruct (Z.ltb_spec u 128); [reflexivity | simpl in Hu; lia].
  - destruct (Z.ltb_spec u 128) as [Lt|Ge]; simpl.
    + destruct (Z.ltb_spec u 128); [reflexivity | lia].
    + pose proof (Z.mod_pos_bound u 128 eq_refl).
      destruct (Z.ltb_spec (u mod 128 + 128) 128); [lia |].
      rewrite IH.
      * pose proof (Z.div_mod u 128). lia.
      * apply Z.div_lt_upper_bound; [lia |].
        rewrite Nat2Z.inj_succ, Z.pow_succ_r in Hu by lia.
        assert (0 < 2 ^ Z.of_nat f) by (apply Z.pow_pos_nonneg; lia). lia.
Qed.

Lemma UVarint_fuel_enough (u : Z) : u < 128 * 2 ^ Z.of_nat (Z.to_nat (Z.log2 u)).
Proof.
  rewrite Z2Nat.id by apply Z.log2_nonneg.
  assert (0 < 2 ^ Z.log2 u) by (apply Z.pow_pos_nonneg; [lia | apply Z.log2_nonneg]).
  destruct (Z.le_gt_cases u 0) as [Le|Gt]; [lia |].
  pose proof (Z.log2_spec u Gt) as [_ Up].
  rewrite Z.pow_succ_r in Up by apply Z.log2_nonneg. lia.
Qed.

Lemma UVarint_skip (u : Z) (rest : list byte) :
  Wire.skipUVarint (Wire.UVarint u ++ rest) = Some (Wire.UVarint u, rest).
Proof. apply uvarint_fuel_skip, UVarint_fuel_enough. Qed.

Lemma UVarint_val (u : Z) : Wire.valUVarint (Wire.UVarint u) = u.
Proof. apply uvarint_fuel_val, UVarint_fuel_enough. Qed.

Lemma skipFixed_app (p rest : list byte) (n : nat) :
  length p = n -> Wire.skipFixed n (p ++ rest) = Some (p, rest).
Proof.
  intros <-. unfold Wire.skipFixed.
  destruct (Nat.leb_spec (length p) (length (p ++ rest))) as [_|Lt].
  - now rewrite take_app_length, drop_app_length.
  - rewrite length_app in Lt. lia.
Qed.

Lemma le_bytes_length (n : nat) (x : Z) : length (Wire.le_bytes n x) = n.
Proof. revert x. induction n; intros x; simpl; auto. Qed.

Lemma skipPrefixed_app (c rest : list byte) :
  Wire.skipPrefixed (Wire.UVarint (Z.of_nat (length c)) ++ c ++ rest) =
  Some (Wire.UVarint (Z.of_nat (length c)) ++ c, c, rest).
Proof.
  unfold Wire.skipPrefixed. rewrite UVarint_skip, UVarint_val, Nat2Z.id.
  rewrite skipFixed_app by reflexivity. reflexivity.
Qed.

Lemma bytes_of_string_length (s : string) :
  length (Wire.bytes_of_string s) = String.length s.
Proof.
  unfold Wire.bytes_of_string. rewrite length_map.
  induction s; simpl; auto.
Qed.

Lemma string_of_bytes_of_string (s : string) :
  Wire.string_of_bytes (Wire.bytes_of_string s) = s.
Proof.
  unfold Wire.string_of_bytes, Wire.bytes_of_string.
  induction s as [|c s IH]; simpl; [reflexivity |].
  rewrite N2Z.id, ascii_N_embedding. f_equal. exact IH.
Qed.

Lemma skipString_String (s : string) (rest : list byte) :
  Wire.skipString (Wire.String s ++ rest) = Some (Wire.String s, rest).
Proof.
  unfold Wire.skipString, Wire.String.
  rewrite <- bytes_of_string_length, <- app_assoc, skipPrefixed_app. reflexivity.
Qed.

Lemma skipString_ByteString (b rest : list byte) :
  Wire.skipString (Wire.ByteString b ++ rest) = Some (Wire.ByteString b, rest).
Proof.
  unfold Wire.skipString, Wire.ByteString.
  rewrite <- app_assoc, skipPrefixed_app. reflexivity.
Qed.

Lemma skipString_Err (e : option GoError) (rest : list byte) :
  Wire.skipString (Wire.Err e ++ rest) = Some (Wire.Err e, rest).
Proof. destruct e; apply skipString_String. Qed.

Lemma andThen_app (f g : list byte -> option (list byte * list byte))
    (p q rest : list byte) :
  (forall r, f (p ++ r) = Some (p, r)) -> g (q ++ rest) = Some (q, rest) ->
  Wire.andThen f g ((p ++ q) ++ rest) = Some (p ++ q, rest).
Proof.
  intros Hf Hg. unfold Wire.andThen. rewrite <- app_assoc, Hf, Hg. reflexivity.
Qed.

End WireFacts.

Section Decodable.
Context `{Collaborators} `{Wire.StackCodec}.

Lemma render_cons (op : BufOp) (tb : Buffer) :
  Wire.render (op :: tb) = Wire.render1 op ++ Wire.render tb.
Proof. reflexivity. Qed.

Lemma render_single (op : BufOp) : Wire.render [op] = Wire.render1 op.
Proof. unfold Wire.render. simpl. apply app_nil_r. Qed.

Lemma render_app (a b : Buffer) :
  Wire.render (a ++ b) = Wire.render a ++ Wire.render b.
Proof. unfold Wire.render. apply flat_map_app. Qed.

Lemma getField_shape (tag : byte) (k : string) (payload : Buffer) (rest : list byte) :
  Wire.skipPayload tag (Wire.render payload ++ rest) = Some (Wire.render payload, rest) ->
  Wire.getField (Wire.render (OpByte tag :: OpString k :: payload) ++ rest) =
  Some (Wire.mkField tag k (Wire.render payload), rest).
Proof.
  intros Hp. rewrite !render_cons. cbn [Wire.render1 app Wire.getField].
  unfold Wire.String. rewrite <- bytes_of_string_length, <- !app_assoc.
  rewrite skipPrefixed_app, Hp, string_of_bytes_of_string. reflexivity.
Qed.

Lemma uuid_bytes_length (u : UUID) : length (uuid_bytes u) = 16%nat.
Proof. apply Nat.eqb_eq, uuid_len. Qed.

Lemma payload_skip (k : string) (v : Value) (rest : list byte) :
  Wire.skipPayload (spec_tag (typeOf v)) (Wire.render (payloadOps (k, v)) ++ rest) =
  Some (Wire.render (payloadOps (k, v)), rest).
Proof.
  unfold payloadOps, traceEntry, addTraceBufEntry. autounfold with tb.
  cbn [fst snd].
  destruct v; cbn [app drop typeOf spec_tag Wire.skipPayload];
    try (destruct (json_Marshal _) as [data [e|]]; cbn [app drop]);
    rewrite ?render_cons; change (Wire.render []) with (@nil byte);
    rewrite ?app_nil_r; cbn [Wire.render1].
  - apply andThen_app; [intros; apply skipString_Err | apply Wire.skipStack_enc].
  - apply skipString_String.
  - apply skipFixed_app. reflexivity.
  - apply skipFixed_app. rewrite length_app, !le_bytes_length. reflexivity.
  - apply skipFixed_app, le_bytes_length.
  - apply skipFixed_app, uuid_bytes_length.
  - apply UVarint_skip.
  - apply UVarint_skip.
  - apply UVarint_skip.
  - apply UVarint_skip.
  - apply UVarint_skip.
  - apply UVarint_skip.
  - apply UVarint_skip.
  - apply UVarint_skip.
  - apply UVarint_skip.
  - apply UVarint_skip.
  - apply skipFixed_app, le_bytes_length.
  - apply skipFixed_app, le_bytes_length.
  - apply andThen_app; [intros; apply skipString_ByteString | apply skipString_Err].
  - apply andThen_app; [intros; apply skipString_ByteString | apply skipString_Err].
  - apply andThen_app; [intros; apply skipString_ByteString | apply skipString_Err].
  - apply andThen_app; [intros; apply skipString_ByteString | apply skipString_Err].
Qed.

Lemma traceEntry_shape (f : string * Value) :
  traceEntry f = OpByte (spec_tag (typeOf (snd f))) :: OpString (fst f) :: payloadOps f.
Proof.
  unfold payloadOps, traceEntry.
  destruct (addTraceBufEntry_shape [] (fst f) (snd f)) as [p ->]. reflexivity.
Qed.

Lemma getField_entry (f : string * Value) (rest : list byte) :
  Wire.getField (Wire.render (traceEntry f) ++ rest) = Some (wireField f, rest).
Proof.
  rewrite traceEntry_shape. destruct f as [k v].
  apply getField_shape, payload_skip.
Qed.

(** C9: the bytes of the entries of any list of fields, followed by anything,
    decode field by field to the tag of each field's type, its key and the
    bytes of its payload, with the rest left over. *)
Theorem trace_fields_decodable (fields : list (string * Value)) (rest : list byte) :
  Wire.getFields (length fields)
    (Wire.render (flat_map traceEntry fields) ++ rest) =
  Some (map wireField fields, rest).
Proof.
  induction fields as [|f fields IH]; [reflexivity |].
  cbn [length flat_map map Wire.getFields].
  rewrite render_app, <- app_assoc, getField_entry, IH. reflexivity.
Qed.

End Decodable.

(** The sample stack serialisation satisfies the interface. *)
Lemma skipVarints_enc (s : Stack) (rest : list byte) :
  Wire.skipVarints (length s) (flat_map Wire.Varint s ++ rest) =
  Some (flat_map Wire.Varint s, rest).
Proof.
  induction s as [|x s IH]; [reflexivity |].
  cbn [length flat_map Wire.skipVarints]. unfold Wire.Varint at 1.
  rewrite <- app_assoc, UVarint_skip, IH. reflexivity.
Qed.

Lemma skipFrames_enc (s : Stack) (rest : list byte) :
  Wire.skipFrames (Wire.encFrames s ++ rest) = Some (Wire.encFrames s, rest).
Proof.
  unfold Wire.skipFrames, Wire.encFrames.
  rewrite <- app_assoc, UVarint_skip, UVarint_val, Nat2Z.id, skipVarints_enc.
  reflexivity.
Qed.

#[local] Instance framesCodec : Wire.StackCodec := {|
  Wire.encStack := Wire.encFrames;
  Wire.skipStack := Wire.skipFrames;
  Wire.skipStack_enc := skipFrames_enc
|}.

Lemma trace_fields_decodable_witness :
  Wire.getFields 3
    (Wire.render (flat_map traceEntry sampleFields) ++ [255]) =
  Some ([Wire.mkField 8 "n" [5];
         Wire.mkField 1 "err" [4; 98; 111; 111; 109; 2; 2; 4];
         Wire.mkField 7 "ch" [0; 32; 106; 115; 111; 110; 58; 32; 117; 110; 115;
                              117; 112; 112; 111; 114; 116; 101; 100; 32; 116;
                              121; 112; 101; 58; 32; 99; 104; 97; 110; 32; 105;
                              110; 116]],
        [255]).
Proof.
  rewrite (trace_fields_decodable sampleFields [255]). reflexivity.
Defined.

(** The chain of section 8: one line with a, b and the call-site field, each
    once, and a trace record whose count is three. *)
Example chain_logs_each_field_once :
  w_sink (snd (chain chainWorld)) =
  [mkLine InfoLevel "m" [Str "service" "api"; Int "a" 1; Int "b" 2; Int "c" 3]] /\
  w_trace (snd (chain chainWorld)) =
  [mkRecord 0%nat LogMessage
     [OpBytes [0; 0; 0; 0; 0; 0; 0; 42]; OpUVarint 7; OpByte levelInfo;
      OpString "m"; OpUVarint 3;
      OpByte intType; OpString "a"; OpVarint 1;
      OpByte intType; OpString "b"; OpVarint 2;
      OpByte intType; OpString "c"; OpVarint 3;
      OpStack [3]]].
Proof. split; reflexivity. Qed.

(** The store is shared: when a parent's field list has spare capacity, a
    second [With] on the same parent writes over what the first child's field
    list shows; the parent itself is untouched. *)
Example siblings_share_spare_capacity :
  fst (siblings siblingsWorld) =
  Ok ([VString "a"; VInt 1; VString "b"; VInt 2; VString "c"; VInt 3;
       VString "x"; VInt 4],
      [VString "a"; VInt 1; VString "b"; VInt 2; VString "c"; VInt 3;
       VString "y"; VInt 5],
      [VString "a"; VInt 1; VString "b"; VInt 2; VString "c"; VInt 3]).
Proof. reflexivity. Qed.

(** * Further properties of the encoders *)

Section Guard.
Context `{Collaborators}.

Lemma reserved_escaped (key : string) : reserved ("x_" ++ key)%string = false.
Proof. reflexivity. Qed.

Lemma eventField_unreserved (key : string) (val : Value) :
  exists f, eventField key val = [f] /\ unreserved f.
Proof.
  destruct (eventField_key key val) as (f & E & K). exists f. split; [exact E |].
  unfold unreserved. rewrite K. destruct (reserved key) eqn:R.
  - apply reserved_escaped.
  - exact R.
Qed.

(** X2: no setter call made by [addEventEntry] or [addContext] carries a key
    that starts with the reserved prefix, whatever key the caller gave; so no
    field a log call or a [With] adds to the sink can stand for a reserved
    name. *)
Theorem sink_never_gets_reserved_key (key : string) (val : Value) :
  (forall ev, exists f,
      addEventEntry ev key val =
        mkEvent (ev_level ev) (ev_context ev) (ev_fields ev ++ [f]) /\
      unreserved f) /\
  (forall ctx, exists f,
      addContext ctx key val = mkContext (cx_fields ctx ++ [f]) /\ unreserved f) /\
  (forall l : list Value, Forall unreserved (sinkFields l)).
Proof.
  destruct (eventField_unreserved key val) as (f & E & U).
  split; [| split].
  - intros ev. exists f. rewrite addEventEntry_field, E. auto.
  - intros ctx. exists f. rewrite addContext_field, E. auto.
  - intros l. induction l as [| x | x y l IH] using pair_ind; simpl.
    + constructor.
    + destruct x; constructor.
    + destruct x; try constructor.
      destruct (eventField_unreserved s y) as (g & -> & Ug). simpl.
      constructor; assumption.
Qed.

(** X3: the guard is not injective.  A reserved key and the same key already
    carrying the escape marker are written to the sink as the same key with
    the same setter, so the line cannot tell them apart; the trace buffer
    keeps them apart. *)
Theorem escaped_key_collides (key : string) (val : Value) :
  reserved key = true ->
  (forall ev, addEventEntry ev ("x_" ++ key)%string val = addEventEntry ev key val) /\
  (forall ctx, addContext ctx ("x_" ++ key)%string val = addContext ctx key val) /\
  (forall tb, addTraceBufEntry tb ("x_" ++ key)%string val <>
              addTraceBufEntry tb key val).
Proof.
  intros R. split; [| split].
  - intros ev. unfold addEventEntry. rewrite reserved_escaped, R. reflexivity.
  - intros ctx. unfold addContext. rewrite reserved_escaped, R. reflexivity.
  - intros tb E.
    destruct (addTraceBufEntry_shape tb ("x_" ++ key)%string val) as [p Ep].
    destruct (addTraceBufEntry_shape tb key val) as [q Eq].
    rewrite Ep, Eq in E. apply app_inv_head in E. injection E as E _.
    exact (escaped_differs key E).
Qed.

End Guard.

Lemma escaped_key_collides_witness :
  addEventEntry (Logger_event InfoLevel sampleLogger) "x_encore_id" (VInt 1) =
  addEventEntry (Logger_event InfoLevel sampleLogger) "encore_id" (VInt 1).
Proof.
  destruct (escaped_key_collides "encore_id" (VInt 1) eq_refl) as (E & _).
  apply E.
Defined.

(** * Further properties of the entry points *)

Section Arguments.
Context `{Collaborators}.

Lemma pairs_idem (s : Slice) : pairs (pairs s) = pairs s.
Proof.
  pose proof (pairs_len_even s) as E. apply even_mod2 in E.
  unfold pairs at 1. rewrite E. reflexivity.
Qed.

Lemma pairs_short (w : World) (s : Slice) :
  (s_len s <= 1)%nat -> view w (pairs s) = [].
Proof.
  intros L. unfold view. replace (s_len (pairs s)) with 0%nat; [apply resize_0 |].
  rewrite pairs_len.
  assert (s_len s = 0 \/ s_len s = 1)%nat as [-> | ->] by lia; reflexivity.
Qed.

(** X4: every entry point sees its arguments through [pairs] only: calling it
    with an unpaired last argument is calling it without that argument,
    whatever the argument is.  In particular a lone argument, string or not, is
    no field and no failed key assertion. *)
Theorem unpaired_argument_is_ignored (kvs : Slice) :
  (forall l, Manager_With l kvs = Manager_With l (pairs kvs)) /\
  (forall c, Ctx_With c kvs = Ctx_With c (pairs kvs)) /\
  (forall m level zl l msg,
      In (m, level, zl) managerMethods -> m l msg kvs = m l msg (pairs kvs)) /\
  (forall m level zl c msg,
      In (m, level, zl) ctxMethods -> m c msg kvs = m c msg (pairs kvs)) /\
  (forall w, (s_len kvs <= 1)%nat -> kvs_ok (view w (pairs kvs)) = true).
Proof.
  split; [| split; [| split; [| split]]].
  - intros l. unfold Manager_With. rewrite pairs_idem. reflexivity.
  - intros c. unfold Ctx_With. rewrite pairs_idem. reflexivity.
  - intros m level zl l msg Hin.
    rewrite !(manager_method_doLog _ _ _ _ _ _ Hin), pairs_idem. reflexivity.
  - intros m level zl c msg Hin.
    rewrite !(ctx_method_doLog _ _ _ _ _ _ Hin), pairs_idem. reflexivity.
  - intros w L. rewrite pairs_short by exact L. reflexivity.
Qed.

Lemma world_eta (w : World) : mkWorld (w_heap w) (w_sink w) (w_trace w) = w.
Proof. destruct w; reflexivity. Qed.

Lemma append_fit (s t : Slice) (w : World) :
  (s_len s + s_len t <= s_cap s)%nat ->
  append s t w =
  (Ok (mkSlice (s_arr s) (s_off s) (s_len s + s_len t) (s_cap s)),
   mkWorld (<[s_arr s :=
              take (s_off s + s_len s) (array w (s_arr s)) ++ view w t ++
              drop (s_off s + (s_len s + s_len t)) (array w (s_arr s))]> (w_heap w))
     (w_sink w) (w_trace w)).
Proof.
  intros Fit. unfold append. cbv zeta.
  destruct (Nat.leb_spec (s_len s + s_len t) (s_cap s)); [reflexivity | lia].
Qed.

Lemma append_grow (s t : Slice) (w : World) :
  (s_cap s < s_len s + s_len t)%nat ->
  append s t w =
  (Ok (mkSlice (length (w_heap w)) 0 (s_len s + s_len t)
         (Nat.max (s_len s + s_len t) (growslice_cap (s_cap s) (s_len s + s_len t)))),
   mkWorld (w_heap w ++
            [view w s ++ view w t ++
             replicate (Nat.max (s_len s + s_len t)
                          (growslice_cap (s_cap s) (s_len s + s_len t))
                        - (s_len s + s_len t)) VNil])
     (w_sink w) (w_trace w)).
Proof.
  intros Grow. unfold append. cbv zeta.
  destruct (Nat.leb_spec (s_len s + s_len t) (s_cap s)); [lia | reflexivity].
Qed.

(** [append] writes to the backing array of its first argument or to a new
    one: every other array of the store stays as it was. *)
Lemma append_frame (s t : Slice) (w : World) (a : nat) :
  a <> s_arr s -> (a < length (w_heap w))%nat ->
  array (snd (append s t w)) a = array w a.
Proof.
  intros Ne Lt.
  destruct (Nat.le_gt_cases (s_len s + s_len t) (s_cap s)) as [Fit|Grow].
  - rewrite append_fit by exact Fit. unfold array. cbn [snd w_heap].
    rewrite list_lookup_insert_ne by congruence. reflexivity.
  - rewrite append_grow by exact Grow. unfold array. cbn [snd w_heap].
    rewrite lookup_app_l by exact Lt. reflexivity.
Qed.

Lemma view_array (w1 w2 : World) (s : Slice) :
  array w1 (s_arr s) = array w2 (s_arr s) -> view w1 s = view w2 s.
Proof. unfold view. intros ->. reflexivity. Qed.

(** X5: [With] without a pair (no argument, or a lone one) gives back the
    receiver: the same sink context, manager and field list, and the store as
    it was. *)
Theorem With_no_pairs_is_identity (c : Ctx) (kvs : Slice) (w : World) :
  slice_ok w (ctx_fields c) -> (s_len kvs <= 1)%nat ->
  Ctx_With c kvs w = (Ok c, w).
Proof.
  intros (A & B & C) L.
  assert (Z0 : s_len (pairs kvs) = 0%nat).
  { rewrite pairs_len.
    assert (s_len kvs = 0 \/ s_len kvs = 1)%nat as [-> | ->] by lia; reflexivity. }
  unfold Ctx_With. cbv zeta. rewrite bind_load, pairs_short by exact L.
  unfold bind. cbn [withLoop ret].
  rewrite append_fit by lia. rewrite Z0, pairs_short by exact L.
  rewrite !Nat.add_0_r. cbn [app]. rewrite take_drop.
  rewrite list_insert_id.
  - rewrite world_eta. destruct c as [[cf] m [a o n k]]. reflexivity.
  - unfold array. destruct (lookup_lt_is_Some_2 (w_heap w) (s_arr (ctx_fields c)) A)
      as [x ->]. reflexivity.
Qed.

End Arguments.

Lemma With_no_pairs_is_identity_witness :
  Ctx_With parentCtx (mkSlice 1 2 1 1) twoArrays = (Ok parentCtx, twoArrays).
Proof.
  apply With_no_pairs_is_identity.
  - unfold slice_ok. simpl. lia.
  - simpl. lia.
Defined.

(** * Sharing of backing arrays *)

Section Sharing.
Context `{Collaborators}.

Lemma pairs_header (s : Slice) :
  pairs s = mkSlice (s_arr s) (s_off s) (s_len (pairs s)) (s_cap s).
Proof.
  unfold pairs. destruct (s_len s mod 2 =? 1)%nat; [reflexivity |].
  destruct s; reflexivity.
Qed.


Lemma pairs_cap (s : Slice) : s_cap (pairs s) = s_cap s.
Proof. rewrite pairs_header. reflexivity. Qed.

Lemma withLoop_world (ctx : Context) (l : list Value) (w : World) :
  snd (withLoop ctx l w) = w.
Proof.
  revert ctx. induction l as [| x | x y l IH] using pair_ind; intros ctx.
  - reflexivity.
  - destruct x; reflexivity.
  - destruct x; try reflexivity. simpl. unfold bind. simpl. apply IH.
Qed.

(** The store after [Ctx.With] is the store before, or the store after the
    [append]. *)
Lemma Ctx_With_world (p : Ctx) (kvs : Slice) (w : World) :
  snd (Ctx_With p kvs w) = w \/
  snd (Ctx_With p kvs w) = snd (append (ctx_fields p) (pairs kvs) w).
Proof.
  unfold Ctx_With. cbv zeta. rewrite bind_load. unfold bind.
  pose proof (withLoop_world (ctx_ctx p) (view w (pairs kvs)) w) as Ew.
  destruct (withLoop (ctx_ctx p) (view w (pairs kvs)) w) as [[c|e] w0];
    simpl in Ew; subst w0; [| left; reflexivity].
  right. destruct (append (ctx_fields p) (pairs kvs) w) as [[s|e] w1]; reflexivity.
Qed.



(** X7: when the child's pairs do not fit the capacity of the parent's field
    list, the child's list is in an array of its own, and nothing a later
    [With] on the parent does changes what it shows. *)
Theorem child_of_full_parent_is_independent (p : Ctx) (kvs1 : Slice) (w : World) :
  slice_ok w (ctx_fields p) ->
  kvs_ok (view w (pairs kvs1)) = true ->
  (s_cap (ctx_fields p) < s_len (ctx_fields p) + s_len (pairs kvs1))%nat ->
  exists c1 w1,
    Ctx_With p kvs1 w = (Ok c1, w1) /\
    s_arr (ctx_fields c1) = length (w_heap w) /\
    forall kvs2,
      view (snd (Ctx_With p kvs2 w1)) (ctx_fields c1) =
      view w (ctx_fields p) ++ view w (pairs kvs1).
Proof.
  intros Hs K1 Grow.
  pose proof (Ctx_With_run p kvs1 w Hs) as R1. rewrite K1 in R1.
  destruct R1 as (s1 & w1 & Ea1 & E1).
  destruct (append_spec (ctx_fields p) (pairs kvs1) w Hs)
    as (s1' & w1' & Ea1' & V1 & _).
  rewrite Ea1 in Ea1'. injection Ea1' as <- <-.
  assert (A1 : s_arr s1 = length (w_heap w) /\
               length (w_heap w1) = S (length (w_heap w))).
  { rewrite append_grow in Ea1 by exact Grow. injection Ea1 as <- <-.
    cbn [s_arr w_heap]. rewrite length_app. simpl. lia. }
  destruct A1 as [A1 L1]. destruct Hs as (A & _).
  eexists _, w1. split; [exact E1 |]. cbn [ctx_fields]. split; [exact A1 |].
  intros kvs2. rewrite <- V1. apply view_array.
  destruct (Ctx_With_world p kvs2 w1) as [-> | ->]; [reflexivity |].
  apply append_frame; lia.
Qed.

(** X8: [Manager.With] keeps the caller's slice as the field list, so when
    that slice has spare capacity a [With] on the returned [Ctx] writes its
    pairs into the caller's array: the caller's slice, taken up to the new
    length, shows them after its own pairs. *)
Theorem With_writes_into_callers_array (l : Manager) (kvs kvs2 : Slice) (w : World) :
  slice_ok w kvs ->
  kvs_ok (view w (pairs kvs)) = true ->
  kvs_ok (view w (pairs kvs2)) = true ->
  (s_len (pairs kvs) + s_len (pairs kvs2) <= s_cap kvs)%nat ->
  exists c c2 w2,
    Manager_With l kvs w = (Ok c, w) /\
    Ctx_With c kvs2 w = (Ok c2, w2) /\
    ctx_fields c2 = reslice kvs (s_len (pairs kvs) + s_len (pairs kvs2)) /\
    view w2 (reslice kvs (s_len (pairs kvs) + s_len (pairs kvs2))) =
      view w (pairs kvs) ++ view w (pairs kvs2).
Proof.
  intros Hs K1 K2 Fit.
  pose proof (Manager_With_run l kvs w) as R0. rewrite K1 in R0.
  set (c := mkCtx (mkContext (lg_context (rt_Logger (rt l))
                              ++ sinkFields (view w (pairs kvs)))) l (pairs kvs)) in *.
  assert (Hc : slice_ok w (ctx_fields c)) by (apply pairs_ok; exact Hs).
  pose proof (Ctx_With_run c kvs2 w Hc) as R2. rewrite K2 in R2.
  destruct R2 as (s2 & w2 & Ea2 & E2).
  destruct (append_spec (ctx_fields c) (pairs kvs2) w Hc)
    as (s2' & w2' & Ea2' & V2 & _).
  rewrite Ea2 in Ea2'. injection Ea2' as <- <-.
  assert (S2 : s2 = reslice kvs (s_len (pairs kvs) + s_len (pairs kvs2))).
  { rewrite append_fit in Ea2 by (cbn [ctx_fields c]; rewrite pairs_cap; exact Fit).
    injection Ea2 as <- _. cbn [ctx_fields c].
    rewrite (pairs_header kvs) at 1 2 4. reflexivity. }
  eexists c, _, w2. split; [exact R0 |]. split; [exact E2 |].
  cbn [ctx_fields]. split; [exact S2 |]. rewrite <- S2. exact V2.
Qed.

End Sharing.

(** * Outcomes and effects of a log call *)

Section Outcomes.
Context `{Collaborators}.





(** X11: the sink context and the field list of a [Ctx] stay in step.
    [Manager.With] on a slice of the store with string keys returns a [Ctx]
    whose sink context holds the root logger's fields followed by the setter
    calls for its field list; [Ctx.With] on such a [Ctx] returns another one,
    and the parent is still one afterwards. *)
Theorem With_keeps_context_and_fields_in_step :
  (forall l kvs w,
      slice_ok w kvs -> kvs_ok (view w (pairs kvs)) = true ->
      exists c, Manager_With l kvs w = (Ok c, w) /\ ctx_ok w c) /\
  (forall p kvs w,
      ctx_ok w p -> kvs_ok (view w (pairs kvs)) = true ->
      exists c w', Ctx_With p kvs w = (Ok c, w') /\ ctx_ok w' c /\ ctx_ok w' p).
Proof.
  split.
  - intros l kvs w Hs K. pose proof (Manager_With_run l kvs w) as R. rewrite K in R.
    eexists. split; [exact R |].
    destruct (Manager_With_ctx_ok l kvs w _ _ Hs R) as [_ Ok']. exact Ok'.
  - intros p kvs w Hp K. pose proof Hp as (Hs & _).
    pose proof (Ctx_With_run p kvs w Hs) as R. rewrite K in R.
    destruct R as (s' & w' & _ & R). eexists _, w'. split; [exact R |].
    exact (Ctx_With_ctx_ok p kvs w _ _ Hp R).
Qed.

End Outcomes.

Section Widths.
Context `{Collaborators}.

(** X12: the width of an integer is kept by the sink and lost by the trace.
    For one key and one number, the five signed widths give one and the same
    trace entry, and so do the five unsigned widths, while the ten setter
    calls made on the sink are all different. *)
Theorem integer_width_kept_by_sink_only (key : string) (i : Z) :
  let signed := [VInt8 i; VInt16 i; VInt32 i; VInt64 i; VInt i] in
  let unsigned := [VUint8 i; VUint16 i; VUint32 i; VUint64 i; VUint i] in
  (forall v, In v signed -> traceEntry (key, v) = traceEntry (key, VInt i)) /\
  (forall v, In v unsigned -> traceEntry (key, v) = traceEntry (key, VUint i)) /\
  NoDup (map (fun v => sinkField (key, v)) (signed ++ unsigned)).
Proof.
  cbv zeta. split; [| split].
  - intros v Hv. simpl in Hv. repeat destruct Hv as [<- | Hv]; try reflexivity.
    destruct Hv.
  - intros v Hv. simpl in Hv. repeat destruct Hv as [<- | Hv]; try reflexivity.
    destruct Hv.
  - unfold sinkField, eventField, addEventEntry. cbn [map app fst snd ev_set ev_fields hd].
    repeat (constructor;
            [rewrite list_elem_of_In; simpl; intros D;
             repeat destruct D as [D|D]; try discriminate D; exact D |]).
    constructor.
Qed.

End Widths.

(** * The properties above, at sample calls *)



Lemma child_of_full_parent_is_independent_witness :
  exists c1 w1,
    Ctx_With (sampleCtx mgrTraced) ctxArgs ctxWorld = (Ok c1, w1) /\
    s_arr (ctx_fields c1) = 2%nat /\
    view (snd (Ctx_With (sampleCtx mgrTraced) ctxArgs w1)) (ctx_fields c1) =
    [VString "a"; VInt 1; VString "b"; VInt 2].
Proof.
  assert (Hs : slice_ok ctxWorld (ctx_fields (sampleCtx mgrTraced))).
  { unfold slice_ok. simpl. lia. }
  assert (Grow : (s_cap (ctx_fields (sampleCtx mgrTraced))
                  < s_len (ctx_fields (sampleCtx mgrTraced)) + s_len (pairs ctxArgs))%nat).
  { simpl. lia. }
  destruct (child_of_full_parent_is_independent (sampleCtx mgrTraced) ctxArgs ctxWorld
              Hs eq_refl Grow) as (c1 & w1 & E1 & A1 & V).
  exists c1, w1. rewrite (V ctxArgs). repeat split; assumption.
Defined.

Lemma With_writes_into_callers_array_witness :
  exists c c2 w2,
    Manager_With mgrTraced (mkSlice 0 0 2 4) callerWorld = (Ok c, callerWorld) /\
    Ctx_With c (mkSlice 1 0 2 2) callerWorld = (Ok c2, w2) /\
    view callerWorld (mkSlice 0 0 4 4) =
      [VString "a"; VInt 1; VString "b"; VInt 2] /\
    view w2 (mkSlice 0 0 4 4) = [VString "a"; VInt 1; VString "x"; VInt 9].
Proof.
  assert (Hs : slice_ok callerWorld (mkSlice 0 0 2 4)).
  { unfold slice_ok. simpl. lia. }
  assert (Fit : (s_len (pairs (mkSlice 0 0 2 4)) + s_len (pairs (mkSlice 1 0 2 2))
                 <= s_cap (mkSlice 0 0 2 4))%nat).
  { simpl. lia. }
  destruct (With_writes_into_callers_array mgrTraced (mkSlice 0 0 2 4) (mkSlice 1 0 2 2)
              callerWorld Hs eq_refl eq_refl Fit) as (c & c2 & w2 & E0 & E2 & _ & V).
  exists c, c2, w2. repeat split; assumption.
Defined.


Lemma With_keeps_context_and_fields_in_step_witness :
  exists c c2 w2,
    Manager_With mgrTraced (mkSlice 0 0 2 2) chainWorld = (Ok c, chainWorld) /\
    Ctx_With c (mkSlice 1 0 2 2) chainWorld = (Ok c2, w2) /\
    ctx_ok w2 c2 /\ ctx_ok w2 c.
Proof.
  assert (Hs : slice_ok chainWorld (mkSlice 0 0 2 2)).
  { unfold slice_ok. simpl. lia. }
  destruct (proj1 With_keeps_context_and_fields_in_step mgrTraced (mkSlice 0 0 2 2)
              chainWorld Hs eq_refl) as (c & E & Hc).
  assert (K : kvs_ok (view chainWorld (pairs (mkSlice 1 0 2 2))) = true) by reflexivity.
  destruct (proj2 With_keeps_context_and_fields_in_step c (mkSlice 1 0 2 2)
              chainWorld Hc K) as (c2 & w2 & E2 & H2 & H1).
  exists c, c2, w2. auto.
Defined.
